(** * mud: the temporal event model (Pitch, Time, Duration, Event, Span)

    A shallow embedding of [mud/notation.py] and [mud/span.py].

    Conventions of the embedding.
    - Python exceptions are values of [exn]; a call that may raise returns
      [result A], threaded with stdpp's monadic notation [x ← c; k].
    - Python numbers (ints and floats alike) are exact rationals [Q]:
      [/] is true division, [round] is round-half-to-even, [int] truncates
      towards zero.  Numeric equality is [Qeq] ([==]), as Python's [==]
      compares values, not representations.  The rounding of floats is
      not modelled: on dyadic grids (1/4, 1/8, ...) and numbers of
      ordinary size the two agree, elsewhere a float sum or quotient may
      differ from the rational one in its last bit.
    - Strings are [string]; only ASCII characters are classified
      ([str.isdigit] is true exactly on ['0'..'9']).
    - Objects are immutable records: a method that mutates [self] returns
      the new object (together with its return value, when it has one). *)

From Stdlib Require Import QArith Qround Qabs Qminmax Lqa.
From Stdlib Require Import Ascii String Sorting.Sorted.
From stdpp Require Import base option list strings pretty gmap.

Local Open Scope Z_scope.

(** ** Exceptions *)

Inductive exn : Set :=
| ValueError
| KeyError
| IndexError
| TypeError
| AttributeError
| AssertionError
| ZeroDivisionError
| Warning
| NotImplementedError.

Inductive result (A : Type) : Type :=
| Ok (a : A)
| Raise (e : exn).
Arguments Ok {A} a.
Arguments Raise {A} e.

#[global] Instance exn_eq_dec : EqDecision exn.
Proof. solve_decision. Defined.
#[global] Instance result_eq_dec {A} `{EqDecision A} : EqDecision (result A).
Proof. solve_decision. Defined.

#[global] Instance result_ret : MRet result := fun A a => Ok a.
#[global] Instance result_bind : MBind result := fun A B f c =>
  match c with
  | Ok a => f a
  | Raise e => Raise e
  end.
#[global] Instance result_fmap : FMap result := fun A B f c =>
  match c with
  | Ok a => Ok (f a)
  | Raise e => Raise e
  end.

(** [assert cond] *)
Definition assert (b : bool) : result unit :=
  if b then Ok tt else Raise AssertionError.

(** [[f(x) for x in l]]: the first element whose [f] raises aborts the
    comprehension. *)
Fixpoint for_each {A B} (f : A → result B) (l : list A) : result (list B) :=
  match l with
  | [] => Ok []
  | x :: l' => y ← f x; ys ← for_each f l'; Ok (y :: ys)
  end.

(** ** Numbers *)

Module Num.
Local Open Scope Q_scope.

Definition eqb (a b : Q) : bool := Qeq_bool a b.
Definition ltb (a b : Q) : bool := negb (Qle_bool b a).
Definition leb (a b : Q) : bool := Qle_bool a b.

(** [a / b] *)
Definition div (a b : Q) : result Q :=
  if eqb b 0 then Raise ZeroDivisionError else Ok (a / b).

(** [round(x)]: to the nearest integer, halves to the even one. *)
Definition round (x : Q) : Z :=
  let f := Qfloor x in
  match Qcompare (x - inject_Z f) (1 # 2) with
  | Lt => f
  | Gt => (f + 1)%Z
  | Eq => if Z.even f then f else (f + 1)%Z
  end.

(** [int(x)]: truncation towards zero. *)
Definition int (x : Q) : Z := Z.quot (Qnum x) (Zpos (Qden x)).

(** [abs(x)] *)
Definition abs (x : Q) : Q := Qabs x.

(** [min(a, b)]: [b] only when it is strictly smaller. *)
Definition min (a b : Q) : Q := if ltb b a then b else a.

(** [max(l)] of a list: the first maximal element; [ValueError] on an
    empty list. *)
Definition max_list (l : list Q) : result Q :=
  match l with
  | [] => Raise ValueError
  | x :: l' => Ok (fold_left (fun m y => if ltb m y then y else m) l' x)
  end.

(** [min(l)] of a list: the first minimal element. *)
Definition min_list (l : list Q) : result Q :=
  match l with
  | [] => Raise ValueError
  | x :: l' => Ok (fold_left (fun m y => if ltb y m then y else m) l' x)
  end.

(** [l.index(x)]: the position of the first element equal to [x]. *)
Fixpoint index (x : Q) (l : list Q) : result nat :=
  match l with
  | [] => Raise ValueError
  | y :: l' => if eqb y x then Ok O else S <$> index x l'
  end.
End Num.

(** ** Strings *)

Module Str.
Definition isdigit (c : ascii) : bool :=
  let n := nat_of_ascii c in (48 <=? n)%nat && (n <=? 57)%nat.

(** The characters that [int] skips: tab to carriage return, and the
    space. *)
Definition isspace (c : ascii) : bool :=
  let n := nat_of_ascii c in
  ((9 <=? n)%nat && (n <=? 13)%nat) || (n =? 32)%nat.

Definition digit_val (c : ascii) : Z := Z.of_nat (nat_of_ascii c) - 48.

Fixpoint all_space (s : string) : bool :=
  match s with
  | EmptyString => true
  | String c s' => isspace c && all_space s'
  end.

(** [int(s)] for a string that starts with a digit: decimal digits, single
    underscores between digits, trailing whitespace. *)
Fixpoint int_from (acc : Z) (s : string) : result Z :=
  match s with
  | EmptyString => Ok acc
  | String c s' =>
      if isdigit c then int_from (10 * acc + digit_val c) s'
      else if Ascii.eqb c "_"%char then
        match s' with
        | String d s'' =>
            if isdigit d then int_from (10 * acc + digit_val d) s''
            else Raise ValueError
        | EmptyString => Raise ValueError
        end
      else if isspace c then
        if all_space s' then Ok acc else Raise ValueError
      else Raise ValueError
  end.

Definition int (s : string) : result Z :=
  match s with
  | String c s' => if isdigit c then int_from (digit_val c) s' else Raise ValueError
  | EmptyString => Raise ValueError
  end.

(** [s[-1]] *)
Fixpoint last (s : string) : result ascii :=
  match s with
  | EmptyString => Raise IndexError
  | String c EmptyString => Ok c
  | String _ s' => last s'
  end.

(** [s[:-1]] *)
Fixpoint init (s : string) : string :=
  match s with
  | EmptyString => EmptyString
  | String _ EmptyString => EmptyString
  | String c s' => String c (init s')
  end.

(** [s.replace(a, b)] for single characters. *)
Fixpoint replace (a b : ascii) (s : string) : string :=
  match s with
  | EmptyString => EmptyString
  | String c s' => String (if Ascii.eqb c a then b else c) (replace a b s')
  end.

(** [s[:n]] and [s[n:]] *)
Definition take (n : nat) (s : string) : string := substring 0 n s.
Definition drop (n : nat) (s : string) : string :=
  substring n (String.length s - n) s.
End Str.

(** [d[k]] on a dict and [l[i]] on a list, with Python's errors. *)
Definition dict_getitem {V} (d : gmap string V) (k : string) : result V :=
  match d !! k with
  | Some v => Ok v
  | None => Raise KeyError
  end.

Definition list_getitem {A} (l : list A) (i : Z) : result A :=
  let n := Z.of_nat (length l) in
  let j := if i <? 0 then i + n else i in
  if (0 <=? j) && (j <? n) then
    match l !! Z.to_nat j with
    | Some x => Ok x
    | None => Raise IndexError
    end
  else Raise IndexError.

(** ** Pitch *)

Module Pitch.
Record t : Set := mk { _relative_pitch : Z; _octave : option Z }.

Definition str_to_relative_pitch : gmap string Z :=
  list_to_map
    [("C", 0); ("C#", 1); ("Db", 1); ("D", 2);
     ("D#", 3); ("Eb", 3); ("E", 4); ("F", 5);
     ("F#", 6); ("Gb", 6); ("G", 7); ("G#", 8);
     ("Ab", 8); ("A", 9); ("A#", 10); ("Bb", 10);
     ("B", 11);
     ("D-", 1); ("E-", 3); ("G-", 6); ("A-", 8);
     ("B-", 10)]%string.

Definition relative_pitch_to_str : list string :=
  ["C"; "Db"; "D"; "Eb"; "E"; "F"; "Gb"; "G"; "Ab"; "A"; "Bb"; "B"]%string.

(** The [while] loop of [pitch_string_to_pitch_octave_pair]: the position
    of the first digit, or the length of the string. *)
Fixpoint first_digit (pitchstr : string) : nat :=
  match pitchstr with
  | EmptyString => O
  | String c s' => if Str.isdigit c then O else S (first_digit s')
  end.

Definition to_midi_pitch (relative_pitch octave : Z) : Z :=
  relative_pitch + (octave + 1) * 12.

Definition pitch_string_to_pitch_octave_pair (pitchstr : string)
  : result (Z * option Z) :=
  let pos := first_digit pitchstr in
  let '(pitch_part, octave_part) :=
    if (pos =? String.length pitchstr)%nat then (pitchstr, None)
    else (Str.take pos pitchstr, Some (Str.drop pos pitchstr)) in
  octave ← match octave_part with
            | Some o => Some <$> Str.int o
            | None => Ok None
            end;
  pitch ← match str_to_relative_pitch !! pitch_part with
           | Some p => Ok p
           | None =>
               (* Handle uncommon variants like 'E#'. *)
               c ← Str.last pitch_part;
               pitch ←
                 (if Ascii.eqb c "#" then
                    p ← dict_getitem str_to_relative_pitch (Str.init pitch_part);
                    Ok (p + 1)
                  else if Ascii.eqb c "-" || Ascii.eqb c "b" then
                    p ← dict_getitem str_to_relative_pitch (Str.init pitch_part);
                    Ok (p - 1)
                  else Raise ValueError);
               (* Correct range of pitch in [0, 12) *)
               let pitch := if pitch <? 0 then pitch + 12 else pitch in
               let pitch := if 12 <=? pitch then pitch - 12 else pitch in
               Ok pitch
           end;
  _ ← assert ((0 <=? pitch) && (pitch <? 12));
  Ok (pitch, octave).

(** The first argument of the constructor, by its run-time type. *)
Inductive arg : Set :=
| OfPitch (p : t)
| OfStr (s : string)
| OfInt (n : Z)
| OfOther.

(** [Pitch(pitch, octave=None)]; [octave] is [None] or an [int]. *)
Definition init (pitch : arg) (octave : option Z) : result t :=
  if (match octave with Some o => o <? 0 | None => false end) then
    Raise ValueError
  else
    match pitch with
    | OfPitch p =>
        match octave with
        | Some o =>
            if _octave p is Some _ then Raise ValueError
            else Ok (mk (_relative_pitch p) (Some o))
        | None => Ok (mk (_relative_pitch p) (_octave p))
        end
    | OfStr s =>
        '(rel, oct) ← pitch_string_to_pitch_octave_pair s;
        match octave, oct with
        | Some _, Some _ => Raise ValueError
        | _, None => Ok (mk rel octave)
        | None, Some _ => Ok (mk rel oct)
        end
    | OfInt n =>
        if (n <? 0) || (11 <? n) then Raise ValueError
        else Ok (mk n octave)
    | OfOther => Raise ValueError
    end.

Definition octave (self : t) : option Z := _octave self.
Definition relative_pitch (self : t) : Z := _relative_pitch self.

Definition midi_pitch (self : t) (assumed_octave : option Z) : result Z :=
  match _octave self, assumed_octave with
  | None, None => Raise ValueError
  | Some o, _ => Ok (to_midi_pitch (_relative_pitch self) o)
  | None, Some a => Ok (to_midi_pitch (_relative_pitch self) a)
  end.

Definition name (self : t) : result string :=
  match _octave self with
  | None => list_getitem relative_pitch_to_str (_relative_pitch self)
  | Some o =>
      n ← list_getitem relative_pitch_to_str (_relative_pitch self);
      Ok (n +:+ pretty o)
  end.

(** What every constructed [Pitch] satisfies. *)
Definition wf (p : t) : Prop :=
  0 <= _relative_pitch p < 12 ∧
  match _octave p with Some o => 0 <= o | None => True end.

(** [Pitch(s).name()] *)
Definition name_of_string (s : string) : result string :=
  p ← init (OfStr s) None; name p.

(** Normalising the flat spelling: [s.replace('-', 'b')], as in
    [from_music21]. *)
Definition normalize_flat (s : string) : string := Str.replace "-" "b" s.
(** [strip_octave()] and [copy()]: both rebuild the pitch from its integer
    relative pitch, so they go through the range checks of the
    constructor. *)
Definition strip_octave (self : t) : result t :=
  init (OfInt (_relative_pitch self)) None.

Definition copy (self : t) : result t :=
  init (OfInt (_relative_pitch self)) (_octave self).

(** [self == other] for [other] a [Pitch]. *)
Definition eq (self other : t) : bool :=
  (_relative_pitch self =? _relative_pitch other)
  && bool_decide (_octave self = _octave other).

(** [compare(a, b)]: the expression is
    [a._relative_pitch + 12*a._octave - b._relative_pitch + 12*b._octave];
    multiplying a [None] octave is a [TypeError]. *)
Definition compare (a b : t) : result Z :=
  match _octave a, _octave b with
  | Some oa, Some ob =>
      Ok (_relative_pitch a + 12 * oa - _relative_pitch b + 12 * ob)
  | _, _ => Raise TypeError
  end.

(** [Pitch(p.name())]: print, then parse again. *)
Definition reparse (self : t) : result t :=
  n ← name self; init (OfStr n) None.
End Pitch.

(** ** Settings

    [mud/settings.py] is not among the sources; the only thing the code
    reads from it is [settings.resolution], the default grid of [Time].
    It is a parameter of every definition that uses it ([None] stands for
    an unquantized default). *)

Module Settings.
Record t : Set := mk { resolution : option Q }.
End Settings.

(** ** Time *)

Module Time.
Local Open Scope Q_scope.

Record t : Set := mk { _time : Q; _resolution : option Q }.

(** The first argument of the constructor, by its run-time type. *)
Inductive arg : Set :=
| OfNum (x : Q)
| OfTime (time : t).

(** [quantize_to(resolution)]: the re-snapped object and the returned
    snapping error.  Dividing by a [None] resolution is a [TypeError]. *)
Definition quantize_to (self : t) (resolution : option Q) : result (t * Q) :=
  let t0 := _time self in
  match resolution with
  | None => Raise TypeError
  | Some r =>
      q ← Num.div (_time self) r;
      let new := r * inject_Z (Num.round q) in
      Ok (mk new (Some r), Num.abs (t0 - new))
  end.

(** [Time(time, resolution)] *)
Definition init (time : arg) (resolution : option Q) : result t :=
  match time with
  | OfTime t0 => Ok (mk (_time t0) (_resolution t0))
  | OfNum x =>
      match resolution with
      | Some _ => fst <$> quantize_to (mk x resolution) resolution
      | None => Ok (mk x None)
      end
  end.

Definition resolution (self : t) : option Q := _resolution self.
Definition in_beats (self : t) : Q := _time self.
Definition is_quantized (self : t) : bool :=
  if _resolution self is Some _ then true else false.

Definition in_resolution_steps (self : t) : result Z :=
  match _resolution self with
  | None => Raise ValueError
  | Some r => q ← Num.div (_time self) r; Ok (Num.int q)
  end.

(** [as_quantized(resolution)]: a shallow copy, re-snapped. *)
Definition as_quantized (self : t) (resolution : option Q) : result t :=
  fst <$> quantize_to self resolution.

Definition is_zero (self : t) : bool :=
  Num.ltb (Num.abs (_time self)) (1 # 1000000).

(** [a == b] on resolutions: [None] equals only [None]. *)
Definition resolution_eqb (a b : option Q) : bool :=
  match a, b with
  | None, None => true
  | Some x, Some y => Num.eqb x y
  | _, _ => false
  end.

(** [min(a, b)] on resolutions: ordering [None] against a number is a
    [TypeError]. *)
Definition resolution_min (a b : option Q) : result (option Q) :=
  match a, b with
  | Some x, Some y => Ok (Some (Num.min x y))
  | _, _ => Raise TypeError
  end.

(** [self == other] for [other] a [Time]. *)
Definition eq (self other : t) : result bool :=
  if resolution_eqb (_resolution self) (_resolution other) then
    if _resolution self is Some _ then
      a ← in_resolution_steps self;
      b ← in_resolution_steps other;
      Ok (a =? b)%Z
    else Ok (Num.eqb (_time self) (_time other))
  else
    (* Take the smallest-resolution of the two times, and quantize them
       to both. *)
    res ← resolution_min (_resolution self) (_resolution other);
    a ← as_quantized self res;
    b ← as_quantized other res;
    x ← in_resolution_steps a;
    y ← in_resolution_steps b;
    Ok (x =? y)%Z.

(** [copy()]: a new [Time] from the stored value and resolution; the
    constructor snaps it again. *)
Definition copy (self : t) : result t :=
  init (OfNum (_time self)) (_resolution self).

Section WithSettings.
Context (settings : Settings.t).

(** [Time(time)], the resolution left to its default. *)
Definition new (time : arg) : result t :=
  init time (Settings.resolution settings).

(** [self + other] for [other] a [Time]. *)
Definition add (self other : t) : result t :=
  new (OfNum (_time self + _time other)).

(** [quantize()]: [quantize_to] the default resolution. *)
Definition quantize (self : t) : result (t * Q) :=
  quantize_to self (Settings.resolution settings).
End WithSettings.

(** Lies on the grid of step [r]. *)
Definition on_grid (r : Q) (x : Q) : Prop := ∃ k : Z, x == r * inject_Z k.
End Time.

(** ** Duration (the canonical-duration quantizer) *)

Module Duration.
Local Open Scope Q_scope.

Record t : Set :=
  mk { _quantized : bool; _duration : Q; _label : option Z }.

(** The possible quantized durations (in quarter note lengths). *)
Definition quantized_durations : list Q :=
  [0; 1 / 16; 1 / 8; 1 / 6; 1 / 4; 1 / 3; 1 / 2; 1 / (3 # 2);
   1; 3 # 2; 2; 3; 4; 6; 8].

(** The first argument of the constructor, by its run-time type. *)
Inductive arg : Set :=
| OfNone
| OfNum (x : Q)
| OfStr (s : string)
| OfDuration (d : t).

(** [Duration(duration, quantized=True, _label=None)]: the body opens
    with an unconditional [raise Warning('Duration is deprecated for
    now!')]; nothing after it is reachable. *)
Definition init (duration : arg) (quantized : bool) (_label : option Z)
  : result t :=
  Raise Warning.

(** [errors] and [new_duration_label] of [as_quantized]. *)
Definition errors (raw : Q) : list Q :=
  map (fun dur => Num.abs (raw - dur)) quantized_durations.

Definition new_duration_label (raw : Q) : result nat :=
  m ← Num.min_list (errors raw);
  Num.index m (errors raw).

(** [as_quantized()]: a copy of [self] when it is already quantized,
    otherwise the pair [(q, e)]. *)
Definition as_quantized (self : t) : result (t + t * Q) :=
  if _quantized self then Ok (inl self)
  else
    label ← new_duration_label (_duration self);
    q ← init OfNone true (Some (Z.of_nat label));
    e ← list_getitem (errors (_duration self)) (Z.of_nat label);
    Ok (inr (q, e)).

(** [quantize()]: unpacks the pair of [as_quantized]. *)
Definition quantize (self : t) : result (t * Q) :=
  r ← as_quantized self;
  match r with
  | inr (q, quantize_error) =>
      Ok (mk true (_duration q) (_label q), quantize_error)
  | inl _ => Raise TypeError
  end.
End Duration.

(** ** Note and Rest *)

Module Note.
Record t : Set := mk { _pitch : Pitch.t; _duration : Time.t }.

Section WithSettings.
Context (settings : Settings.t).

(** [Note(pitch, duration)] *)
Definition init (pitch : Pitch.arg) (duration : Time.arg) : result t :=
  p ← Pitch.init pitch None;
  d ← Time.new settings duration;
  Ok (mk p d).

(** [copy()], that is [Note(note=self)]: the pitch and the duration go
    through the copying branches of their constructors. *)
Definition copy (self : t) : result t :=
  init (Pitch.OfPitch (_pitch self)) (Time.OfTime (_duration self)).
End WithSettings.

Definition pitch (self : t) : option Pitch.t := Some (_pitch self).
Definition duration (self : t) : Time.t := _duration self.

(** [self == other] for [other] a [Note]; [and] evaluates the durations
    only when the pitches are equal. *)
Definition eq (self other : t) : result bool :=
  if Pitch.eq (_pitch self) (_pitch other)
  then Time.eq (_duration self) (_duration other)
  else Ok false.
End Note.

Module Rest.
Record t : Set := mk { _duration : Time.t }.

Section WithSettings.
Context (settings : Settings.t).

(** [Rest(duration)] *)
Definition init (duration : Time.arg) : result t :=
  d ← Time.new settings duration;
  Ok (mk d).

(** [copy()], that is [Rest(self._duration)]. *)
Definition copy (self : t) : result t := init (Time.OfTime (_duration self)).
End WithSettings.

Definition pitch (self : t) : option Pitch.t := None.
Definition duration (self : t) : Time.t := _duration self.

(** [self == other] for [other] a [Rest]. *)
Definition eq (self other : t) : result bool :=
  Time.eq (_duration self) (_duration other).
End Rest.

(** The object wrapped by an event: the tagged variant of §9 of the
    specification. *)
Inductive payload : Set :=
| ANote (n : Note.t)
| ARest (r : Rest.t).

(** ** Event *)

Module Event.
(** Modelled from the spec: [mud/event.py] is not among the sources.
    §3: an Event wraps exactly one payload object (a Note or a Rest)
    plus a [Time], its onset relative to the offset of its Span.  The
    accessors are the ones [span.py] and [piece.py] call. *)
Record t : Set := mk { _payload : payload; _time : Time.t }.

Definition time (self : t) : Time.t := _time self.
Definition unwrap (self : t) : payload := _payload self.

Definition pitch (self : t) : option Pitch.t :=
  match _payload self with
  | ANote n => Note.pitch n
  | ARest r => Rest.pitch r
  end.

Definition duration (self : t) : Time.t :=
  match _payload self with
  | ANote n => Note.duration n
  | ARest r => Rest.duration r
  end.

End Event.

(** ** [list.sort(key=...)]

    Python computes the key of every element first (an exception of a key
    aborts the sort and leaves the list as it was), then sorts stably by
    the keys.  A stable sort is determined by its specification; it is
    modelled by insertion from the right, an element going in front of
    the elements whose key is not smaller. *)

Module PyList.
(** [a <= b] on pairs of integers: tuples compare lexicographically. *)
Definition key_leb (a b : Z * Z) : bool :=
  (a.1 <? b.1) || ((a.1 =? b.1) && (a.2 <=? b.2)).

Definition key_le (a b : Z * Z) : Prop :=
  a.1 < b.1 ∨ (a.1 = b.1 ∧ a.2 <= b.2).

Section Sort.
Context {A : Type}.

Fixpoint insert (x : (Z * Z) * A) (l : list ((Z * Z) * A))
  : list ((Z * Z) * A) :=
  match l with
  | [] => [x]
  | y :: l' => if key_leb x.1 y.1 then x :: y :: l' else y :: insert x l'
  end.

Definition sort_decorated (l : list ((Z * Z) * A)) : list ((Z * Z) * A) :=
  foldr insert [] l.

Definition sort (key : A → result (Z * Z)) (l : list A) : result (list A) :=
  keys ← for_each key l;
  Ok ((sort_decorated (zip keys l)).*2).
End Sort.
End PyList.

(** Run-time classes, as [type()] and [isinstance()] see them. *)
Inductive class : Set :=
| NoneType_ | int_ | float_ | str_
| Pitch_ | Time_ | Note_ | Rest_ | Event_ | Span_.

#[global] Instance class_eq_dec : EqDecision class.
Proof. solve_decision. Defined.

(** ** Span *)

Module Span.
Local Open Scope Q_scope.

Record t : Set := mk { _events : list Event.t; _offset : Time.t }.

(** Python values, as far as the dynamic checks of [span.py] tell them
    apart. *)
Inductive value : Set :=
| VNone
| VInt (n : Z)
| VFloat (x : Q)
| VStr (s : string)
| VPitch (p : Pitch.t)
| VTime (time : Time.t)
| VNote (n : Note.t)
| VRest (r : Rest.t)
| VEvent (e : Event.t)
| VSpan (s : t).

Definition type (v : value) : class :=
  match v with
  | VNone => NoneType_
  | VInt _ => int_
  | VFloat _ => float_
  | VStr _ => str_
  | VPitch _ => Pitch_
  | VTime _ => Time_
  | VNote _ => Note_
  | VRest _ => Rest_
  | VEvent _ => Event_
  | VSpan _ => Span_
  end.

(** An element of the [events] argument of the constructor: an [Event],
    or a tuple [(e, t)] with [t] a [Time]. *)
Inductive item : Set :=
| AnEvent (e : Event.t)
| APair (e0 : payload) (e1 : Time.t).

Module TimeSlice.
(** Modelled from the spec: [mud/timeslice.py] is not among the
    sources.  §3: a TimeSlice is a non-owning view of the events of a
    Span whose onset falls within the half-open window
    [[start, end)]; it selects and does not copy. *)
Record t : Set := mk { _span : Span.t; _slice_range : Q * Q }.

Definition start (self : t) : Q := (_slice_range self).1.
Definition stop (self : t) : Q := (_slice_range self).2.

Definition sliced_events (self : t) : list Event.t :=
  filter (fun e => Num.leb (start self) (Time.in_beats (Event.time e))
                   && Num.ltb (Time.in_beats (Event.time e)) (stop self) = true)
         (_events (_span self)).
End TimeSlice.

Definition events_requiring_nonzero_duration : list class := [Note_; Rest_].

(** [append_event(event)] for an [Event] object.  The guard tests the
    class of [event] itself; in its second conjunct [event.duration] is
    a bound method, which has no attribute [is_zero]. *)
Definition append_event (self : t) (event : Event.t) : result t :=
  if decide (type (VEvent event) ∈ events_requiring_nonzero_duration) then
    Raise AttributeError
  else
    Ok (mk (_events self ++ [event]) (_offset self)).

Definition end_positions (self : t) : list Q :=
  map (fun event => Time.in_beats (Event.time event)
                    + Time.in_beats (Event.duration event))
      (_events self).

Definition calculate_span_length (self : t) : result Q :=
  Num.max_list (end_positions self).

Definition num_events (self : t) : nat := length (_events self).
Definition offset (self : t) : Time.t := _offset self.

(** The key of [sort]. *)
Definition sort_key (e : Event.t) : result (Z * Z) :=
  steps ← Time.in_resolution_steps (Event.time e);
  midi ← match Event.pitch e with
          | Some p => Pitch.midi_pitch p (Some 4%Z)
          | None => Ok 0%Z
          end;
  Ok (steps, midi).

Definition sort (self : t) : result t :=
  events ← PyList.sort sort_key (_events self);
  Ok (mk events (_offset self)).

Definition get_slice (self : t) (slice_range : Q * Q) : TimeSlice.t :=
  TimeSlice.mk self slice_range.

(** [generate_slices(slice_resolution)] is a generator.  One pull from
    the state [t]: the slice yielded and the next state, or [None] when
    the loop ends. *)
Definition generate_slices_next (self : t) (slice_resolution : Q) (t0 : Q)
  : result (option (TimeSlice.t * Q)) :=
  len ← calculate_span_length self;
  if Num.ltb t0 len then
    Ok (Some (get_slice self (t0, t0 + slice_resolution), t0 + slice_resolution))
  else Ok None.

(** [list(...)] of the generator from state [t], pulling at most [fuel]
    times: [None] when the fuel does not reach the end. *)
Fixpoint generate_slices_from (fuel : nat) (self : t) (slice_resolution : Q)
  (t0 : Q) : option (result (list TimeSlice.t)) :=
  match fuel with
  | O => None
  | S fuel' =>
      match generate_slices_next self slice_resolution t0 with
      | Raise e => Some (Raise e)
      | Ok None => Some (Ok [])
      | Ok (Some (ts, t1)) =>
          match generate_slices_from fuel' self slice_resolution t1 with
          | Some (Ok l) => Some (Ok (ts :: l))
          | other => other
          end
      end
  end.

Definition generate_slices (fuel : nat) (self : t) (slice_resolution : Q)
  : option (result (list TimeSlice.t)) :=
  generate_slices_from fuel self slice_resolution 0.

Section WithSettings.
Context (settings : Settings.t).

Definition pad_to_length (self : t) (length : Q) : result t :=
  actual_length ← calculate_span_length self;
  if Num.ltb length actual_length then Ok self
  else
    let to_pad := length - actual_length in
    if Num.leb to_pad 0 then Ok self
    else
      r ← Rest.init settings (Time.OfNum to_pad);
      time ← Time.new settings (Time.OfNum actual_length);
      Ok (mk (_events self ++ [Event.mk (ARest r) time]) (_offset self)).

Definition length (self : t) : result Time.t :=
  len ← calculate_span_length self;
  Time.new settings (Time.OfNum len).

Definition move_offset_to_events (self : t) : result t :=
  events ← for_each (fun e => time ← Time.add settings (Event._time e) (_offset self);
                              Ok (Event.mk (Event._payload e) time))
                    (_events self);
  zero ← Time.new settings (Time.OfNum 0);
  Ok (mk events zero).

(** [Span(events, offset=0, length=None, sort=True)] *)
Definition init (events : list item) (offset : value) (length : option Q)
  (sort_ : bool) : result t :=
  offset ← match offset with
            | VInt n => Time.new settings (Time.OfNum (inject_Z n))
            | VFloat x => Time.new settings (Time.OfNum x)
            | VTime time => Time.new settings (Time.OfTime time)
            | _ => Raise ValueError
            end;
  self ← foldl (fun acc e =>
                   self ← acc;
                   match e with
                   | AnEvent e => append_event self e
                   | APair e0 e1 => append_event self (Event.mk e0 e1)
                   end)
                (Ok (mk [] offset)) events;
  self ← match length with
          | Some length =>
              actual_length ← calculate_span_length self;
              _ ← assert (Num.leb actual_length (length + (1 # 10000)));
              self ← pad_to_length self length;
              _ ← assert (Num.leb (length - (1 # 10000)) actual_length);
              Ok self
          | None => Ok self
          end;
  if sort_ then sort self else Ok self.

(** [_overlay_two_spans(span_a, span_b)] *)
Definition _overlay_two_spans (span_a span_b : value) : result t :=
  match span_a, span_b with
  | VSpan a, VSpan b =>
      events ← for_each (fun event =>
                           time ← Time.add settings (Event.time event) (offset b);
                           Ok (Event.mk (Event.unwrap event) time))
                        (_events b);
      Ok (mk (_events a ++ events) (_offset a))
  | _, _ => Raise ValueError
  end.

(** [overlay] of its argument tuple [args].  [deepcopy] is the identity on immutable
    records; a value that is not a Span has no attribute
    [move_offset_to_events]. *)
Definition overlay (args : list value) : result t :=
  arg0 ← list_getitem args 0;
  result ← match arg0 with
            | VSpan s => move_offset_to_events s
            | _ => Raise AttributeError
            end;
  result ← foldl (fun acc span =>
                     result ← acc;
                     _overlay_two_spans (VSpan result) span)
                  (Ok result) (drop 1 args);
  zero ← Time.new settings (Time.OfNum 0);
  same ← Time.eq (offset result) zero;
  _ ← assert same;
  sort result.
End WithSettings.
End Span.

(** ** Piece

    The part of [mud/piece.py] that does not go through music21: a Piece
    as an ordered list of Spans (its bars) with optional key data. *)

Module Piece.
Record t : Set :=
  mk { _spans : list Span.t;
       _tonic : option Pitch.t;
       _key_mode : option string;
       _name : option string }.

Definition init_empty (name : option string) : t := mk [] None None name.

(** [build_from_spans] on its argument tuple: every argument is asserted
    to be a Span before any is stored. *)
Definition build_from_spans (spans : list Span.value) : result t :=
  bars ← for_each (fun bar => match bar with
                              | Span.VSpan s => Ok s
                              | _ => Raise AssertionError
                              end) spans;
  Ok (mk bars None None None).

(** [from_spans]: an empty Piece, then [build_from_spans]. *)
Definition from_spans (spans : list Span.value) : result t :=
  build_from_spans spans.

Definition bars (self : t) : list Span.t := _spans self.
Definition num_spans (self : t) : nat := length (_spans self).
Definition count_events (self : t) : nat :=
  sum_list_with Span.num_events (_spans self).

(** The payload of an event with the duration object replaced. *)
Definition with_duration (p : payload) (d : Time.t) : payload :=
  match p with
  | ANote n => ANote (Note.mk (Note._pitch n) d)
  | ARest _ => ARest (Rest.mk d)
  end.

Section WithSettings.
Context (settings : Settings.t).

Definition as_span (self : t) : result Span.t :=
  Span.overlay settings (Span.VSpan <$> _spans self).

(** [acc + item] for [item] a [Time], as [sum] evaluates it: only a
    [Time] has an [__add__] that accepts a [Time], and [Time] has no
    [__radd__]. *)
Definition add_time (acc : Span.value) (item : Time.t) : result Span.value :=
  match acc with
  | Span.VTime a => Span.VTime <$> Time.add settings a item
  | _ => Raise TypeError
  end.

(** [sum(b.length() for b in bars)] from the accumulator [acc]: the
    generator computes a length only when [sum] asks for it. *)
Fixpoint sum_lengths (acc : Span.value) (bars : list Span.t)
  : result Span.value :=
  match bars with
  | [] => Ok acc
  | b :: bars' =>
      item ← Span.length settings b;
      acc' ← add_time acc item;
      sum_lengths acc' bars'
  end.

Definition length_in_beats (self : t) : result Span.value :=
  sum_lengths (Span.VInt 0) (_spans self).

(** The body of the loops of [quantize_events]: the duration object of
    the payload and the onset object of the event are re-snapped in
    place. *)
Definition quantize_event (event : Event.t) : result Event.t :=
  d ← Time.quantize settings (Event.duration event);
  time ← Time.quantize settings (Event.time event);
  Ok (Event.mk (with_duration (Event.unwrap event) d.1) time.1).

Definition quantize_bar (bar : Span.t) : result Span.t :=
  events ← for_each quantize_event (Span._events bar);
  Ok (Span.mk events (Span._offset bar)).

Definition quantize_events (self : t) : result t :=
  bars ← for_each quantize_bar (_spans self);
  Ok (mk bars (_tonic self) (_key_mode self) (_name self)).
End WithSettings.
End Piece.

(** * Vocabulary of the statements *)

(** The spellings of the fixed table that are naturals or flats. *)
Definition flat_or_natural_spellings : list string :=
  ["C"; "D"; "E"; "F"; "G"; "A"; "B";
   "Db"; "Eb"; "Gb"; "Ab"; "Bb";
   "D-"; "E-"; "G-"; "A-"; "B-"]%string.

(** The order of a decorated list: by key only. *)
Definition by_key {A : Type} : relation ((Z * Z) * A) :=
  fun x y => PyList.key_le x.1 y.1.

(** The event that an element of the constructor's [events] argument
    stands for. *)
Definition item_event (i : Span.item) : Event.t :=
  match i with
  | Span.AnEvent e => e
  | Span.APair e0 e1 => Event.mk e0 e1
  end.

(** Where an event ends: its onset plus its duration, in beats. *)
Definition end_position (e : Event.t) : Q :=
  (Time.in_beats (Event.time e) + Time.in_beats (Event.duration e))%Q.

(** The default resolution is usable when it is [None] or a number other
    than zero (with a zero default [Time(x)] divides by zero). *)
Definition usable (settings : Settings.t) : Prop :=
  ∀ r, Settings.resolution settings = Some r → ¬ (r == 0)%Q.

(** [x] snapped to the grid of step [r], and the value of [Time(x)] under
    the default resolution. *)
Definition snap (r x : Q) : Q := (r * inject_Z (Num.round (x / r)))%Q.

Definition time_of (settings : Settings.t) (x : Q) : Time.t :=
  match Settings.resolution settings with
  | Some r => Time.mk (snap r x) (Some r)
  | None => Time.mk x None
  end.

(** The offsets that the constructor of [Span] accepts. *)
Definition offset_time (settings : Settings.t) (offset : Span.value)
  : option Time.t :=
  match offset with
  | Span.VInt n => Some (time_of settings (inject_Z n))
  | Span.VFloat x => Some (time_of settings x)
  | Span.VTime time => Some time
  | _ => None
  end.

(** The second component of the sort key: the MIDI pitch of the event,
    octave 4 assumed when the pitch has none, and 0 for a Rest. *)
Definition sort_pitch (e : Event.t) : Z :=
  match Event.pitch e with
  | Some p => Pitch.to_midi_pitch (Pitch._relative_pitch p)
                                  (default 4 (Pitch._octave p))
  | None => 0
  end.



(** An event whose onset is quantized on a grid other than zero. *)
Definition quantized_onset (e : Event.t) : Prop :=
  ∃ r, Time._resolution (Event.time e) = Some r ∧ ¬ (r == 0)%Q.


(** An event moved by an offset: the same payload, its onset the sum as
    [Time.__add__] builds it. *)
Definition shift_event (settings : Settings.t) (off : Time.t) (e : Event.t)
  : Event.t :=
  Event.mk (Event.unwrap e)
           (time_of settings (Time._time (Event.time e) + Time._time off)%Q).

(** All the events of a Span, its offset folded into their onsets. *)
Definition absolute_events (settings : Settings.t) (s : Span.t) : list Event.t :=
  map (shift_event settings (Span.offset s)) (Span._events s).

(** A number that [Time(x)] stores as it is under the default resolution:
    any number when there is no default grid, a multiple of the grid step
    otherwise. *)
Definition on_default_grid (settings : Settings.t) (x : Q) : Prop :=
  match Settings.resolution settings with
  | Some r => Time.on_grid r x
  | None => True
  end.

(** An event after [quantize_events]: its duration and its onset
    re-snapped under the default resolution. *)
Definition requantized (settings : Settings.t) (e : Event.t) : Event.t :=
  Event.mk (Piece.with_duration (Event.unwrap e)
              (time_of settings (Time.in_beats (Event.duration e))))
           (time_of settings (Time.in_beats (Event.time e))).

(** * Properties *)

(** ** The exception monad *)

Lemma bind_Ok {A B} (c : result A) (k : A → result B) (b : B) :
  c ≫= k = Ok b ↔ ∃ a, c = Ok a ∧ k a = Ok b.
Proof.
  destruct c as [a|e]; simpl; split.
  - intros H; exists a; auto.
  - intros (a' & [= <-] & H); exact H.
  - discriminate.
  - intros (a' & [=] & _).
Qed.

Lemma fmap_Ok {A B} (f : A → B) (c : result A) (b : B) :
  f <$> c = Ok b ↔ ∃ a, c = Ok a ∧ b = f a.
Proof.
  destruct c as [a|e]; simpl; split.
  - intros [= <-]; eauto.
  - intros (a' & [= <-] & ->); reflexivity.
  - discriminate.
  - intros (a' & [=] & _).
Qed.

Lemma assert_Ok (b : bool) (u : unit) : assert b = Ok u ↔ b = true.
Proof. destruct b, u; simpl; split; (reflexivity || discriminate). Qed.

Lemma for_each_Ok {A B} (f : A → result B) (g : A → B) (l : list A) :
  (∀ x, x ∈ l → f x = Ok (g x)) → for_each f l = Ok (map g l).
Proof.
  induction l as [|x l IH]; intros H; simpl; [reflexivity|].
  rewrite (H x) by left. simpl.
  rewrite IH; [reflexivity|]. intros y Hy. apply H. by right.
Qed.

Ltac inv_bind H :=
  repeat match type of H with
  | _ ≫= _ = Ok _ =>
      let a := fresh "a" in
      let Ha := fresh "Ha" in
      apply bind_Ok in H; destruct H as (a & Ha & H)
  end.

(** ** Pitch *)

Example parse_C4 :
  Pitch.pitch_string_to_pitch_octave_pair "C4" = Ok (0, Some 4).
Proof. vm_compute. reflexivity. Qed.

Example parse_E_sharp :
  Pitch.pitch_string_to_pitch_octave_pair "E#" = Ok (5, None).
Proof. vm_compute. reflexivity. Qed.

Example parse_C_flat :
  Pitch.pitch_string_to_pitch_octave_pair "Cb" = Ok (11, None).
Proof. vm_compute. reflexivity. Qed.

Example parse_empty :
  Pitch.pitch_string_to_pitch_octave_pair "" = Raise IndexError.
Proof. vm_compute. reflexivity. Qed.

Example parse_H :
  Pitch.pitch_string_to_pitch_octave_pair "H" = Raise ValueError.
Proof. vm_compute. reflexivity. Qed.

Example name_G5 : Pitch.name_of_string "G5" = Ok "G5"%string.
Proof. vm_compute. reflexivity. Qed.

(** The parser's closing assertion: a parsed relative pitch is in [0, 12). *)
Lemma parse_range (s : string) (rel : Z) (oct : option Z) :
  Pitch.pitch_string_to_pitch_octave_pair s = Ok (rel, oct) → 0 <= rel < 12.
Proof.
  unfold Pitch.pitch_string_to_pitch_octave_pair.
  destruct (if (_ =? _)%nat then _ else _) as [pitch_part octave_part].
  intros Hp. inv_bind Hp. apply assert_Ok in Ha1.
  injection Hp as <- _. lia.
Qed.

Lemma digit_val_nonneg (c : ascii) : Str.isdigit c = true → 0 <= Str.digit_val c.
Proof.
  unfold Str.isdigit, Str.digit_val. intros H.
  apply andb_true_iff in H as [H _]. apply Nat.leb_le in H. lia.
Qed.

Lemma int_from_nonneg (n : nat) :
  ∀ (s : string) (acc z : Z),
    (String.length s <= n)%nat → 0 <= acc → Str.int_from acc s = Ok z → 0 <= z.
Proof.
  induction n as [|n IH]; intros s acc z Hlen Hacc.
  - destruct s; simpl in *; [|lia]. intros [= <-]; exact Hacc.
  - destruct s as [|c s]; simpl in *; [intros [= <-]; exact Hacc|].
    destruct (Str.isdigit c) eqn:Hc.
    + apply IH; [lia|]. pose proof (digit_val_nonneg c Hc). lia.
    + destruct (Ascii.eqb c "_").
      * destruct s as [|d s]; [discriminate|].
        destruct (Str.isdigit d) eqn:Hd; [|discriminate].
        apply IH; [simpl in Hlen; lia|].
        pose proof (digit_val_nonneg d Hd). lia.
      * destruct (Str.isspace c); [|discriminate].
        destruct (Str.all_space s); [|discriminate].
        intros [= <-]; exact Hacc.
Qed.

Lemma str_int_nonneg (s : string) (z : Z) : Str.int s = Ok z → 0 <= z.
Proof.
  destruct s as [|c s]; simpl; [discriminate|].
  destruct (Str.isdigit c) eqn:Hc; [|discriminate].
  apply (int_from_nonneg (String.length s)); [lia|].
  by apply digit_val_nonneg.
Qed.

(** A parsed octave is a non-negative integer. *)
Lemma parse_octave_nonneg (s : string) (rel o : Z) :
  Pitch.pitch_string_to_pitch_octave_pair s = Ok (rel, Some o) → 0 <= o.
Proof.
  unfold Pitch.pitch_string_to_pitch_octave_pair.
  destruct (_ =? _)%nat; cbv beta iota; intros H; inv_bind H.
  - congruence.
  - apply fmap_Ok in Ha as (z & Hz & ->).
    injection H as _ <-. by apply str_int_nonneg in Hz.
Qed.

(** X1.  Every path through the constructor yields a well-formed pitch, a
    relative pitch in [0, 12) and an octave that is absent or not
    negative, given that a copied pitch was well formed. *)
Lemma pitch_init_wf (a : Pitch.arg) (octave : option Z) (p : Pitch.t) :
  (∀ q, a = Pitch.OfPitch q → Pitch.wf q) →
  Pitch.init a octave = Ok p → Pitch.wf p.
Proof.
  unfold Pitch.init, Pitch.wf. intros Hq.
  destruct octave as [o|].
  - destruct (Z.ltb_spec o 0); [discriminate|].
    destruct a as [q|s|n|]; try discriminate.
    + destruct (Hq q eq_refl) as [Hr _].
      destruct (Pitch._octave q); [discriminate|]. intros [= <-]; simpl; auto.
    + intros Hi. inv_bind Hi. destruct a as [rel oct].
      apply parse_range in Ha. destruct oct; [discriminate|].
      injection Hi as <-. simpl; auto.
    + destruct (Z.ltb_spec n 0), (Z.ltb_spec 11 n); simpl; try discriminate.
      intros [= <-]; simpl. split; lia.
  - destruct a as [q|s|n|]; try discriminate.
    + destruct (Hq q eq_refl) as [Hr Ho]. intros [= <-]; simpl; auto.
    + intros Hi. inv_bind Hi. destruct a as [rel oct].
      pose proof (parse_range _ _ _ Ha) as Hrel.
      destruct oct as [o|]; injection Hi as <-; simpl; [|auto].
      split; [exact Hrel|]. eapply parse_octave_nonneg, Ha.
    + destruct (Z.ltb_spec n 0), (Z.ltb_spec 11 n); simpl; try discriminate.
      intros [= <-]; simpl. split; [lia|exact I].
Qed.


Lemma replace_dash_char (c : ascii) :
  (c = "-"%char ∧ (if Ascii.eqb c "-" then "b"%char else c) = "b"%char) ∨
  (c ≠ "-"%char ∧ (if Ascii.eqb c "-" then "b"%char else c) = c).
Proof. destruct (Ascii.eqb_spec c "-"); [left|right]; auto. Qed.

Ltac split_or H :=
  repeat match type of H with
         | _ ∨ _ => destruct H as [H|H]
         | False => destruct H
         | _ ∈ [] => apply elem_of_nil in H; destruct H
         | _ ∈ _ :: _ => apply elem_of_cons in H
         end.

Lemma normalize_flat_canonical (s : string) :
  Pitch.normalize_flat s ∈ Pitch.relative_pitch_to_str →
  s ∈ flat_or_natural_spellings.
Proof.
  unfold Pitch.normalize_flat, Pitch.relative_pitch_to_str,
    flat_or_natural_spellings.
  intros H.
  destruct s as [|c1 [|c2 [|c3 s]]]; cbn [Str.replace] in H;
    try (split_or H; discriminate H).
  - destruct (replace_dash_char c1) as [[E1 E2]|[Hne E2]]; rewrite E2 in H;
      split_or H; simplify_eq; set_solver.
  - destruct (replace_dash_char c1) as [[E1 E2]|[Hne1 E2]]; rewrite E2 in H;
      destruct (replace_dash_char c2) as [[E3 E4]|[Hne2 E4]]; rewrite E4 in H;
      split_or H; simplify_eq; set_solver.
Qed.

(** C9, as stated, fails on a sharp: ["C#"] is a valid pitch string
    without an octave, already free of ['-'], and [name()] answers its
    enharmonic flat ["Db"]. *)
Lemma pitch_name_sharp_is_respelled :
  Pitch.pitch_string_to_pitch_octave_pair "C#" = Ok (1, None) ∧
  Pitch.normalize_flat "C#" = "C#"%string ∧
  Pitch.name_of_string "C#" = Ok "Db"%string ∧
  Pitch.name_of_string "C#" ≠ Ok (Pitch.normalize_flat "C#").
Proof. vm_compute. repeat split; discriminate. Qed.

Lemma name_of_parsed (s : string) (rel : Z) :
  Pitch.pitch_string_to_pitch_octave_pair s = Ok (rel, None) →
  ∃ n, Pitch.relative_pitch_to_str !! Z.to_nat rel = Some n ∧
       Pitch.name_of_string s = Ok n.
Proof.
  intros Hp. pose proof (parse_range _ _ _ Hp) as Hr.
  unfold Pitch.name_of_string, Pitch.init. cbn [negb]. rewrite Hp.
  cbn. unfold list_getitem.
  assert (Hlen : length Pitch.relative_pitch_to_str = 12%nat) by reflexivity.
  rewrite Hlen.
  destruct (Z.ltb_spec rel 0); [lia|].
  destruct (Z.leb_spec 0 rel); [|lia].
  destruct (Z.ltb_spec rel (Z.of_nat 12)); [|lia]. cbn [andb].
  destruct (Pitch.relative_pitch_to_str !! Z.to_nat rel) as [n|] eqn:E.
  - exists n; auto.
  - apply lookup_ge_None in E. lia.
Qed.

(** C9 (amended).  For every valid pitch string [s] without an octave part,
    [Pitch(s).name()] returns the canonical spelling that the fixed table
    [relative_pitch_to_str] holds for the parsed relative pitch.  That
    spelling is [s] with ['-'] rewritten to ['b'] exactly when [s] is one of
    the natural or flat spellings of the table; every other valid string (a
    sharp, or a variant such as ["Cb"]) comes back respelled. *)
Theorem pitch_name_is_canonical (s : string) (rel : Z) :
  Pitch.pitch_string_to_pitch_octave_pair s = Ok (rel, None) →
  ∃ n, Pitch.relative_pitch_to_str !! Z.to_nat rel = Some n ∧
       Pitch.name_of_string s = Ok n ∧
       (n = Pitch.normalize_flat s ↔ s ∈ flat_or_natural_spellings).
Proof.
  intros Hp. destruct (name_of_parsed s rel Hp) as (n & Hn & Hname).
  exists n. repeat split; auto.
  - intros ->. apply normalize_flat_canonical.
    eapply list_elem_of_lookup_2, Hn.
  - intros Hs. unfold flat_or_natural_spellings in Hs.
    split_or Hs; subst s; vm_compute in Hp; injection Hp as <-;
      vm_compute in Hn; injection Hn as <-; reflexivity.
Qed.

Lemma pitch_name_is_canonical_witness :
  ∃ n, Pitch.relative_pitch_to_str !! Z.to_nat 3 = Some n ∧
       Pitch.name_of_string "E-" = Ok n ∧
       (n = Pitch.normalize_flat "E-" ↔ "E-"%string ∈ flat_or_natural_spellings).
Proof. apply (pitch_name_is_canonical "E-" 3). vm_compute. reflexivity. Defined.

(** ** Numbers *)

Section NumFacts.
Local Open Scope Q_scope.

Lemma ltb_lt (a b : Q) : Num.ltb a b = true ↔ a < b.
Proof.
  unfold Num.ltb. rewrite negb_true_iff, <- not_true_iff_false, Qle_bool_iff.
  split; [apply Qnot_le_lt | apply Qlt_not_le].
Qed.

Lemma ltb_ge (a b : Q) : Num.ltb a b = false ↔ b <= a.
Proof. unfold Num.ltb. rewrite negb_false_iff. apply Qle_bool_iff. Qed.

Lemma leb_le (a b : Q) : Num.leb a b = true ↔ a <= b.
Proof. apply Qle_bool_iff. Qed.

Lemma leb_gt (a b : Q) : Num.leb a b = false ↔ b < a.
Proof.
  unfold Num.leb. rewrite <- not_true_iff_false, Qle_bool_iff.
  split; [apply Qnot_le_lt | apply Qlt_not_le].
Qed.

Lemma eqb_eq (a b : Q) : Num.eqb a b = true ↔ a == b.
Proof. apply Qeq_bool_iff. Qed.

Lemma eqb_neq (a b : Q) : Num.eqb a b = false ↔ ¬ a == b.
Proof. unfold Num.eqb. rewrite <- not_true_iff_false, Qeq_bool_iff. tauto. Qed.

Lemma div_Ok (a b : Q) : ¬ b == 0 → Num.div a b = Ok (a / b).
Proof. intros Hb. unfold Num.div. apply eqb_neq in Hb. by rewrite Hb. Qed.

Lemma div_zero (a b : Q) : b == 0 → Num.div a b = Raise ZeroDivisionError.
Proof. intros Hb. unfold Num.div. apply eqb_eq in Hb. by rewrite Hb. Qed.

Lemma min_nonzero (a b : Q) : ¬ a == 0 → ¬ b == 0 → ¬ Num.min a b == 0.
Proof. unfold Num.min. destruct (Num.ltb b a); auto. Qed.
End NumFacts.

(** ** Time *)

Section TimeFacts.
Local Open Scope Q_scope.

Lemma quantize_to_Ok (self : Time.t) (r : Q) :
  ¬ r == 0 →
  Time.quantize_to self (Some r) =
    Ok (Time.mk (r * inject_Z (Num.round (Time._time self / r))) (Some r),
        Num.abs (Time._time self - r * inject_Z (Num.round (Time._time self / r)))).
Proof. intros Hr. unfold Time.quantize_to. by rewrite div_Ok. Qed.

Lemma in_resolution_steps_Ok (self : Time.t) (r : Q) :
  Time._resolution self = Some r → ¬ r == 0 →
  Time.in_resolution_steps self = Ok (Num.int (Time._time self / r)).
Proof.
  intros Hres Hr. unfold Time.in_resolution_steps. rewrite Hres.
  by rewrite div_Ok.
Qed.
End TimeFacts.

(** C10.  On two [Time] values of which exactly one is unquantized
    (resolution [None]), [==] raises (the [min] of [None] and a number is a
    [TypeError]) instead of answering; whenever [==] does answer, the two
    operands are both quantized or both unquantized; and it answers in
    both of these cases: always for two unquantized operands, and for two
    quantized ones whenever their resolutions are not zero. *)
Theorem time_eq_mixed_resolution_raises (a b : Time.t) :
  (Time.is_quantized a ≠ Time.is_quantized b → Time.eq a b = Raise TypeError) ∧
  (∀ v, Time.eq a b = Ok v → Time.is_quantized a = Time.is_quantized b) ∧
  (Time.is_quantized a = false → Time.is_quantized b = false →
   Time.eq a b = Ok (Num.eqb (Time._time a) (Time._time b))) ∧
  (∀ ra rb, Time._resolution a = Some ra → Time._resolution b = Some rb →
            ¬ (ra == 0)%Q → ¬ (rb == 0)%Q → ∃ v, Time.eq a b = Ok v).
Proof.
  destruct a as [ta [ra|]], b as [tb [rb|]];
    unfold Time.eq, Time.is_quantized; cbn [Time._resolution Time._time Time.resolution_eqb Time.resolution_min];
    repeat split; try congruence; try (intros; simplify_eq; fail).
  intros ? ? [= <-] [= <-] Ha Hb.
  destruct (Num.eqb ra rb) eqn:E.
  - unfold Time.in_resolution_steps. cbn [Time._resolution Time._time].
    rewrite !div_Ok by assumption. cbn. eauto.
  - pose proof (min_nonzero ra rb Ha Hb) as Hm.
    cbn [mbind result_bind]. unfold Time.as_quantized.
    rewrite !quantize_to_Ok by assumption. cbn [fmap result_fmap fst mbind result_bind].
    unfold Time.in_resolution_steps. cbn [Time._resolution Time._time].
    rewrite !div_Ok by assumption. cbn. eauto.
Qed.

Lemma time_eq_mixed_resolution_raises_witness :
  Time.eq (Time.mk 1 None) (Time.mk 1 (Some (1 # 4)%Q)) = Raise TypeError ∧
  Time.eq (Time.mk 1 (Some (1 # 4)%Q)) (Time.mk 1 None) = Raise TypeError ∧
  ∃ v, Time.eq (Time.mk 1 (Some (1 # 4)%Q)) (Time.mk 1 (Some (1 # 8)%Q)) = Ok v.
Proof.
  split; [|split].
  - apply (time_eq_mixed_resolution_raises
             (Time.mk 1 None) (Time.mk 1 (Some (1 # 4)%Q))).
    vm_compute. discriminate.
  - apply (time_eq_mixed_resolution_raises
             (Time.mk 1 (Some (1 # 4)%Q)) (Time.mk 1 None)).
    vm_compute. discriminate.
  - apply (time_eq_mixed_resolution_raises
             (Time.mk 1 (Some (1 # 4)%Q)) (Time.mk 1 (Some (1 # 8)%Q)))
      with (ra := (1 # 4)%Q) (rb := (1 # 8)%Q);
      first [reflexivity | vm_compute; discriminate].
Defined.

(** ** [min], [max] and [index] on lists of numbers *)

Section ListScan.
Local Open Scope Q_scope.

Lemma fold_min_spec (l : list Q) (x : Q) :
  let m := fold_left (fun m y => if Num.ltb y m then y else m) l x in
  (m = x ∨ m ∈ l) ∧ m <= x ∧ ∀ y, y ∈ l → m <= y.
Proof.
  revert x. induction l as [|y l IH]; intros x; cbn.
  - split; [by left|]. split; [apply Qle_refl|]. intros y Hy. inversion Hy.
  - destruct (IH (if Num.ltb y x then y else x)) as (Hin & Hle & Hall).
    destruct (Num.ltb y x) eqn:E.
    + apply ltb_lt in E. split; [|split].
      * right. destruct Hin as [->|Hin]; [left|by right].
      * eapply Qle_trans; [exact Hle|]. by apply Qlt_le_weak.
      * intros z Hz. apply elem_of_cons in Hz as [->|Hz]; auto.
    + apply ltb_ge in E. split; [|split].
      * destruct Hin as [->|Hin]; [by left|right; by right].
      * exact Hle.
      * intros z Hz. apply elem_of_cons in Hz as [->|Hz]; auto.
        eapply Qle_trans; eauto.
Qed.

Lemma fold_max_spec (l : list Q) (x : Q) :
  let m := fold_left (fun m y => if Num.ltb m y then y else m) l x in
  (m = x ∨ m ∈ l) ∧ x <= m ∧ ∀ y, y ∈ l → y <= m.
Proof.
  revert x. induction l as [|y l IH]; intros x; cbn.
  - split; [by left|]. split; [apply Qle_refl|]. intros y Hy. inversion Hy.
  - destruct (IH (if Num.ltb x y then y else x)) as (Hin & Hle & Hall).
    destruct (Num.ltb x y) eqn:E.
    + apply ltb_lt in E. split; [|split].
      * right. destruct Hin as [->|Hin]; [left|by right].
      * eapply Qle_trans; [|exact Hle]. by apply Qlt_le_weak.
      * intros z Hz. apply elem_of_cons in Hz as [->|Hz]; auto.
    + apply ltb_ge in E. split; [|split].
      * destruct Hin as [->|Hin]; [by left|right; by right].
      * exact Hle.
      * intros z Hz. apply elem_of_cons in Hz as [->|Hz]; auto.
        eapply Qle_trans; eauto.
Qed.

(** [min(l)] of a non-empty list is an element of [l] below all the
    others. *)
Lemma min_list_spec (l : list Q) :
  l ≠ [] → ∃ m, Num.min_list l = Ok m ∧ m ∈ l ∧ ∀ y, y ∈ l → m <= y.
Proof.
  destruct l as [|x l]; [congruence|]. intros _. cbn.
  destruct (fold_min_spec l x) as (Hin & Hle & Hall).
  eexists; split; [reflexivity|]. split.
  - destruct Hin as [->|Hin]; [left|by right].
  - intros y Hy. apply elem_of_cons in Hy as [->|Hy]; auto.
Qed.

(** [max(l)] of a non-empty list is an element of [l] above all the
    others; of an empty list it is a [ValueError]. *)
Lemma max_list_spec (l : list Q) :
  l ≠ [] → ∃ m, Num.max_list l = Ok m ∧ m ∈ l ∧ ∀ y, y ∈ l → y <= m.
Proof.
  destruct l as [|x l]; [congruence|]. intros _. cbn.
  destruct (fold_max_spec l x) as (Hin & Hle & Hall).
  eexists; split; [reflexivity|]. split.
  - destruct Hin as [->|Hin]; [left|by right].
  - intros y Hy. apply elem_of_cons in Hy as [->|Hy]; auto.
Qed.

(** [l.index(x)] is the first position holding a value equal to [x]. *)
Lemma index_spec (x : Q) (l : list Q) :
  (∃ y, y ∈ l ∧ y == x) →
  ∃ i y, Num.index x l = Ok i ∧ l !! i = Some y ∧ y == x ∧
         ∀ j z, (j < i)%nat → l !! j = Some z → ¬ z == x.
Proof.
  induction l as [|a l IH]; intros (y & Hy & Hyx); [inversion Hy|].
  cbn. destruct (Num.eqb a x) eqn:E.
  - apply eqb_eq in E. exists O, a. repeat split; auto. intros; lia.
  - apply eqb_neq in E.
    apply elem_of_cons in Hy as [->|Hy]; [contradiction|].
    destruct IH as (i & z & Hi & Hz & Hzx & Hfirst); [eauto|].
    exists (S i), z. rewrite Hi. repeat split; auto.
    intros [|j] w Hj Hw; cbn in Hw.
    + by injection Hw as <-.
    + apply (Hfirst j); [lia|exact Hw].
Qed.
End ListScan.

(** ** Duration *)

Section DurationFacts.
Local Open Scope Q_scope.

Lemma errors_lookup (raw : Q) (i : nat) :
  Duration.errors raw !! i =
    (fun dur => Num.abs (raw - dur)) <$> Duration.quantized_durations !! i.
Proof. unfold Duration.errors. apply list_lookup_fmap. Qed.

(** The scan of [as_quantized]: the label is the first index of the
    table at which the distance to [raw] is minimal. *)
Lemma new_duration_label_spec (raw : Q) :
  ∃ i q, Duration.new_duration_label raw = Ok i ∧
         Duration.quantized_durations !! i = Some q ∧
         (∀ j qj, Duration.quantized_durations !! j = Some qj →
                  Num.abs (raw - q) <= Num.abs (raw - qj)) ∧
         (∀ j qj, (j < i)%nat → Duration.quantized_durations !! j = Some qj →
                  Num.abs (raw - q) < Num.abs (raw - qj)).
Proof.
  unfold Duration.new_duration_label.
  destruct (min_list_spec (Duration.errors raw)) as (m & Hm & Hin & Hmin);
    [discriminate|].
  rewrite Hm. cbn [mbind result_bind].
  destruct (index_spec m (Duration.errors raw)) as (i & e & Hi & He & Hem & Hfirst).
  { exists m. split; [exact Hin|reflexivity]. }
  rewrite errors_lookup in He.
  destruct (Duration.quantized_durations !! i) as [q|] eqn:Hq; [|discriminate].
  injection He as <-.
  exists i, q. repeat split; auto.
  - intros j qj Hj. rewrite Hem. apply Hmin.
    apply list_elem_of_lookup. exists j. by rewrite errors_lookup, Hj.
  - intros j qj Hlt Hj.
    assert (Hle : Num.abs (raw - q) <= Num.abs (raw - qj)).
    { rewrite Hem. apply Hmin.
      apply list_elem_of_lookup. exists j. by rewrite errors_lookup, Hj. }
    apply Qle_lt_or_eq in Hle as [Hlt'|Heq]; [exact Hlt'|].
    exfalso. apply (Hfirst j (Num.abs (raw - qj)) Hlt).
    + by rewrite errors_lookup, Hj.
    + by rewrite <- Heq.
Qed.
End DurationFacts.

(** C3, as stated, fails: quantizing 0.26 returns nothing.  Constructing
    the [Duration] raises [Warning], and so does [as_quantized] on an
    unquantized object holding 0.26. *)
Lemma duration_quantize_026_raises :
  Duration.init (Duration.OfNum (26 # 100)) true None = Raise Warning ∧
  Duration.as_quantized (Duration.mk false (26 # 100) None) = Raise Warning ∧
  Duration.quantize (Duration.mk false (26 # 100) None) = Raise Warning.
Proof. vm_compute. auto. Qed.

(** C3 (amended).  The [Duration] class is switched off: its constructor
    raises [Warning] on every argument, so no raw duration can be wrapped
    and [as_quantized] never returns a pair (on an unquantized object it
    raises [Warning] while building the quantized result).  The scan that
    it performs before raising is the documented one: the label is the
    first index of the fixed table that minimises the absolute difference
    with the raw value; for 0.26 it is index 4, the entry 0.25, at
    distance 0.01. *)
Theorem duration_quantizer_is_deprecated (raw : Q) :
  (∀ quantized label,
     Duration.init (Duration.OfNum raw) quantized label = Raise Warning) ∧
  (∀ label, Duration.as_quantized (Duration.mk false raw label) = Raise Warning) ∧
  (∀ self q e, Duration.as_quantized self ≠ Ok (inr (q, e))) ∧
  (∃ i q, Duration.new_duration_label raw = Ok i ∧
          Duration.quantized_durations !! i = Some q ∧
          (∀ j qj, Duration.quantized_durations !! j = Some qj →
                   (Num.abs (raw - q) <= Num.abs (raw - qj))%Q) ∧
          (∀ j qj, (j < i)%nat → Duration.quantized_durations !! j = Some qj →
                   (Num.abs (raw - q) < Num.abs (raw - qj))%Q)) ∧
  (Duration.new_duration_label (26 # 100) = Ok 4%nat ∧
   Duration.quantized_durations !! 4%nat = Some (1 # 4)%Q ∧
   (Num.abs ((26 # 100) - (1 # 4)) == 1 # 100)%Q).
Proof.
  split; [reflexivity|]. split; [|split; [|split]].
  - intros label. unfold Duration.as_quantized. cbn [Duration._quantized Duration._duration].
    destruct (new_duration_label_spec raw) as (i & q & -> & _). reflexivity.
  - intros self q e. unfold Duration.as_quantized.
    destruct (Duration._quantized self); [discriminate|].
    destruct (Duration.new_duration_label _); discriminate.
  - apply new_duration_label_spec.
  - vm_compute. auto.
Qed.

(** ** [list.sort(key=...)] *)

Lemma strongly_sorted_lookup {B} (R : relation B) (l : list B) :
  StronglySorted R l →
  ∀ i j x y, (i < j)%nat → l !! i = Some x → l !! j = Some y → R x y.
Proof.
  induction 1 as [|a l Hl IH Ha]; intros i j x y Hij Hi Hj; [discriminate|].
  destruct j as [|j]; [lia|]. cbn in Hj.
  destruct i as [|i]; cbn in Hi.
  - injection Hi as <-. rewrite Forall_forall in Ha. apply Ha.
    eapply list_elem_of_lookup_2, Hj.
  - apply (IH i j); [lia|exact Hi|exact Hj].
Qed.

Section SortFacts.
Context {A : Type}.
Implicit Types (x : (Z * Z) * A) (l : list ((Z * Z) * A)).

Lemma key_leb_le (a b : Z * Z) : PyList.key_leb a b = true ↔ PyList.key_le a b.
Proof.
  unfold PyList.key_leb, PyList.key_le.
  rewrite orb_true_iff, andb_true_iff, Z.ltb_lt, Z.eqb_eq, Z.leb_le. tauto.
Qed.

Lemma key_le_trans (a b c : Z * Z) :
  PyList.key_le a b → PyList.key_le b c → PyList.key_le a c.
Proof. unfold PyList.key_le. lia. Qed.

Lemma key_le_total (a b : Z * Z) : PyList.key_le a b ∨ PyList.key_le b a.
Proof. unfold PyList.key_le. lia. Qed.


Lemma insert_perm x l : PyList.insert x l ≡ₚ x :: l.
Proof.
  induction l as [|y l IH]; cbn; [reflexivity|].
  destruct (PyList.key_leb x.1 y.1); [reflexivity|].
  rewrite IH. apply Permutation_swap.
Qed.

Lemma insert_sorted x l :
  StronglySorted by_key l → StronglySorted by_key (PyList.insert x l).
Proof.
  induction 1 as [|y l Hl IH Hy]; cbn.
  - repeat constructor.
  - destruct (PyList.key_leb x.1 y.1) eqn:E.
    + apply key_leb_le in E. constructor; [by constructor|].
      constructor; [exact E|].
      eapply Forall_impl; [exact Hy|]. intros z Hz.
      eapply key_le_trans; [exact E|exact Hz].
    + assert (Hyx : by_key y x).
      { destruct (key_le_total x.1 y.1) as [H|H]; [|exact H].
        apply key_leb_le in H. congruence. }
      constructor; [exact IH|].
      rewrite insert_perm. by constructor.
Qed.

Lemma sort_decorated_cons x l :
  PyList.sort_decorated (x :: l) = PyList.insert x (PyList.sort_decorated l).
Proof. reflexivity. Qed.

Lemma sort_decorated_perm l : PyList.sort_decorated l ≡ₚ l.
Proof.
  induction l as [|x l IH]; [reflexivity|].
  by rewrite sort_decorated_cons, insert_perm, IH.
Qed.

Lemma sort_decorated_sorted l : StronglySorted by_key (PyList.sort_decorated l).
Proof.
  induction l as [|x l IH]; [constructor|].
  rewrite sort_decorated_cons. by apply insert_sorted.
Qed.

(** Insertion keeps the elements that were already there in their
    order, and puts the new one in front of those with an equal key:
    the sort is stable. *)
Lemma insert_filter (P : (Z * Z) * A → Prop) `{∀ y, Decision (P y)} x l :
  (∀ y, y ∈ l → P y → P x → PyList.key_le x.1 y.1) →
  StronglySorted by_key l →
  filter P (PyList.insert x l) = filter P (x :: l).
Proof.
  intros Hxy Hl. induction Hl as [|y l Hl IH Hy]; cbn; [reflexivity|].
  destruct (PyList.key_leb x.1 y.1) eqn:E; [reflexivity|].
  rewrite filter_cons. rewrite IH by (intros z Hz; apply Hxy; by right).
  rewrite !filter_cons.
  destruct (decide (P y)) as [Py|], (decide (P x)) as [Px|]; try reflexivity.
  pose proof (Hxy y (list_elem_of_here _ _) Py Px) as Hle.
  apply key_leb_le in Hle. congruence.
Qed.

Lemma sort_decorated_stable (k : Z * Z) l :
  filter (fun y => y.1 = k) (PyList.sort_decorated l)
  = filter (fun y => y.1 = k) l.
Proof.
  induction l as [|x l IH]; [reflexivity|].
  rewrite sort_decorated_cons, insert_filter.
  - by rewrite !filter_cons, IH.
  - intros y _ -> ->. unfold PyList.key_le. lia.
  - apply sort_decorated_sorted.
Qed.

Context (key : A → result (Z * Z)).

Lemma for_each_key_Ok (l : list A) (keys : list (Z * Z)) :
  for_each key l = Ok keys ↔ Forall2 (fun e k => key e = Ok k) l keys.
Proof.
  revert keys. induction l as [|e l IH]; intros keys; cbn.
  - split; [intros [= <-]; constructor|]. by inversion 1.
  - rewrite bind_Ok. split.
    + intros (k & Hk & Hr). apply bind_Ok in Hr as (ks & Hks & [= <-]).
      constructor; [exact Hk|]. by apply IH.
    + inversion 1 as [|? k ? ks Hk Hks]; subst.
      exists k. split; [exact Hk|]. apply bind_Ok.
      exists ks. split; [by apply IH|reflexivity].
Qed.

Lemma for_each_key_total (l : list A) :
  (∀ e, e ∈ l → ∃ k, key e = Ok k) → ∃ keys, for_each key l = Ok keys.
Proof.
  induction l as [|e l IH]; intros H; cbn; [eauto|].
  destruct (H e) as [k ->]; [left|].
  destruct IH as [ks ->]; [intros; apply H; by right|]. cbn. eauto.
Qed.

Lemma for_each_key_Raise (l : list A) (e : A) (x : exn) :
  e ∈ l → key e = Raise x → ∃ y, for_each key l = Raise y.
Proof.
  induction l as [|a l IH]; intros Hin He; [inversion Hin|].
  cbn. apply elem_of_cons in Hin as [<-|Hin].
  - rewrite He. cbn. eauto.
  - destruct (key a); cbn; [|eauto].
    destruct (IH Hin He) as [y ->]. cbn. eauto.
Qed.

(** What [sort] returns: a permutation of the list, with non-decreasing
    keys, elements of equal key in their original order. *)
Lemma sort_spec (l l' : list A) :
  PyList.sort key l = Ok l' →
  l' ≡ₚ l ∧
  (∀ i j ei ej ki kj, (i < j)%nat → l' !! i = Some ei → l' !! j = Some ej →
                      key ei = Ok ki → key ej = Ok kj → PyList.key_le ki kj) ∧
  (∀ k, filter (fun e => key e = Ok k) l' = filter (fun e => key e = Ok k) l).
Proof.
  unfold PyList.sort. intros H. apply bind_Ok in H as (keys & Hkeys & [= <-]).
  apply for_each_key_Ok in Hkeys.
  pose proof (Forall2_length _ _ _ Hkeys) as Hlen.
  assert (Hdec : ∀ y, y ∈ zip keys l → key y.2 = Ok y.1).
  { intros [k e] Hy. apply list_elem_of_lookup in Hy as [i Hi].
    apply lookup_zip_with_Some in Hi as (k' & e' & [= <- <-] & Hk & He).
    cbn. exact (Forall2_lookup_lr _ _ _ _ _ _ Hkeys He Hk). }
  assert (Hdec' : ∀ y, y ∈ PyList.sort_decorated (zip keys l) → key y.2 = Ok y.1).
  { intros y Hy. apply Hdec. by rewrite <- sort_decorated_perm. }
  split; [|split].
  - rewrite sort_decorated_perm. rewrite snd_zip by lia. reflexivity.
  - intros i j ei ej ki kj Hij Hi Hj Hki Hkj.
    rewrite list_lookup_fmap in Hi, Hj.
    destruct (PyList.sort_decorated (zip keys l) !! i) as [[ki' ei']|] eqn:Ei;
      [|discriminate].
    destruct (PyList.sort_decorated (zip keys l) !! j) as [[kj' ej']|] eqn:Ej;
      [|discriminate].
    cbn in Hi, Hj. injection Hi as ->. injection Hj as ->.
    pose proof (Hdec' _ (list_elem_of_lookup_2 _ _ _ Ei)) as Hi'.
    pose proof (Hdec' _ (list_elem_of_lookup_2 _ _ _ Ej)) as Hj'.
    cbn in Hi', Hj'. rewrite Hki in Hi'. rewrite Hkj in Hj'.
    injection Hi' as <-. injection Hj' as <-.
    pose proof (sort_decorated_sorted (zip keys l)) as Hs.
    exact (strongly_sorted_lookup by_key _ Hs i j (ki, ei) (kj, ej) Hij Ei Ej).
  - intros k.
    assert (Hf : ∀ d : list ((Z * Z) * A), (∀ y, y ∈ d → key y.2 = Ok y.1) →
              filter (fun e => key e = Ok k) d.*2
              = (filter (fun y => y.1 = k) d).*2).
    { induction d as [|y d IH]; intros Hd; [reflexivity|].
      cbn [fmap list_fmap]. rewrite !filter_cons.
      rewrite IH by (intros; apply Hd; by right).
      pose proof (Hd y (list_elem_of_here _ _)) as Hy.
      destruct (decide (key y.2 = Ok k)) as [E|E], (decide (y.1 = k)) as [E'|E'];
        try reflexivity; exfalso; congruence. }
    rewrite Hf by exact Hdec'. rewrite sort_decorated_stable.
    rewrite <- Hf by exact Hdec. by rewrite snd_zip by lia.
Qed.

Lemma sort_total (l : list A) :
  (∀ e, e ∈ l → ∃ k, key e = Ok k) → ∃ l' : list A, PyList.sort key l = Ok l'.
Proof.
  intros H. destruct (for_each_key_total l H) as [keys Hk].
  unfold PyList.sort. rewrite Hk. cbn. eauto.
Qed.
End SortFacts.

(** ** Time under the default resolution *)

Section DefaultResolution.
Local Open Scope Q_scope.
Context (settings : Settings.t) (Husable : usable settings).

Lemma time_new_num (x : Q) :
  Time.new settings (Time.OfNum x) = Ok (time_of settings x).
Proof.
  unfold Time.new, Time.init, time_of.
  destruct (Settings.resolution settings) as [r|] eqn:E; [|reflexivity].
  by rewrite quantize_to_Ok by (by apply Husable).
Qed.

Lemma time_new_time (time : Time.t) :
  Time.new settings (Time.OfTime time) = Ok time.
Proof. by destruct time. Qed.

Lemma time_add_Ok (a b : Time.t) :
  Time.add settings a b = Ok (time_of settings (Time._time a + Time._time b)).
Proof. apply time_new_num. Qed.

Lemma rest_init_num (x : Q) :
  Rest.init settings (Time.OfNum x) = Ok (Rest.mk (time_of settings x)).
Proof. unfold Rest.init. by rewrite time_new_num. Qed.
End DefaultResolution.

(** ** Span: construction *)

Section SpanConstruction.
Local Open Scope Q_scope.
Context (settings : Settings.t).

(** The guard of [append_event] never fires on an [Event]. *)
Lemma append_event_Ok (self : Span.t) (event : Event.t) :
  Span.append_event self event
  = Ok (Span.mk (Span._events self ++ [event]) (Span._offset self)).
Proof. reflexivity. Qed.

Lemma init_loop (items : list Span.item) (events : list Event.t) (off : Time.t) :
  foldl (fun acc e =>
           self ← acc;
           match e with
           | Span.AnEvent e => Span.append_event self e
           | Span.APair e0 e1 => Span.append_event self (Event.mk e0 e1)
           end)
        (Ok (Span.mk events off)) items
  = Ok (Span.mk (events ++ map item_event items) off).
Proof.
  revert events. induction items as [|i items IH]; intros events; cbn [foldl map].
  - by rewrite app_nil_r.
  - cbn [mbind result_bind]. destruct i; rewrite append_event_Ok;
      cbn [Span._events Span._offset]; rewrite IH, <- app_assoc; reflexivity.
Qed.

Lemma sort_events (s s' : Span.t) :
  Span.sort s = Ok s' →
  Span._events s' ≡ₚ Span._events s ∧ Span._offset s' = Span._offset s.
Proof.
  unfold Span.sort. intros H. apply bind_Ok in H as (events & Hs & [= <-]).
  apply sort_spec in Hs as (Hperm & _). auto.
Qed.

Lemma calculate_span_length_ends (s : Span.t) :
  Span.calculate_span_length s = Num.max_list (map end_position (Span._events s)).
Proof. reflexivity. Qed.
End SpanConstruction.

(** C1: what the code does.  [append_event] stores every [Event] it is
    given, whatever its duration, so a constructor call without a target
    length that succeeds holds exactly the events it was given: a single
    event of duration zero yields a Span with one event, not zero. *)
Theorem span_init_keeps_zero_duration_events
  (settings : Settings.t) (items : list Span.item) (offset : Span.value)
  (sort_ : bool) (s : Span.t) :
  Span.init settings items offset None sort_ = Ok s →
  Span._events s ≡ₚ map item_event items ∧
  Span.num_events s = length items.
Proof.
  unfold Span.init. intros H.
  apply bind_Ok in H as (off & _ & H).
  rewrite init_loop in H. cbn [mbind result_bind app] in H.
  assert (Hperm : Span._events s ≡ₚ map item_event items).
  { destruct sort_.
    - by apply sort_events in H as [-> _].
    - by injection H as <-. }
  split; [exact Hperm|].
  unfold Span.num_events. by rewrite Hperm, length_map.
Qed.

Lemma span_init_keeps_zero_duration_events_witness :
  let zero := Time.mk 0 (Some (1 # 4)%Q) in
  let note := ANote (Note.mk (Pitch.mk 0 (Some 4)) zero) in
  ∃ s, Span.init (Settings.mk (Some (1 # 4)%Q)) [Span.APair note zero]
                 (Span.VInt 0) None true = Ok s ∧
       Time.is_zero (Event.duration (Event.mk note zero)) = true ∧
       Span._events s ≡ₚ [Event.mk note zero] ∧
       Span.num_events s = 1%nat.
Proof.
  intros zero note. eexists. split; [vm_compute; reflexivity|].
  split; [vm_compute; reflexivity|].
  apply (span_init_keeps_zero_duration_events
           (Settings.mk (Some (1 # 4)%Q)) [Span.APair note zero]
           (Span.VInt 0) true).
  vm_compute. reflexivity.
Defined.

(** ** Snapping to a grid *)

Section Snap.
Local Open Scope Q_scope.

Lemma round_inject_Z (k : Z) : Num.round (inject_Z k) = k.
Proof.
  unfold Num.round. rewrite Qfloor_Z.
  assert (E : inject_Z k - inject_Z k == 0) by ring.
  assert (H : Qcompare (inject_Z k - inject_Z k) (1 # 2) = Lt).
  { rewrite <- Qlt_alt, E. reflexivity. }
  by rewrite H.
Qed.

Lemma round_comp (x y : Q) : x == y → Num.round x = Num.round y.
Proof.
  intros E. unfold Num.round.
  rewrite (Qfloor_comp _ _ E).
  assert (E' : x - inject_Z (Qfloor y) == y - inject_Z (Qfloor y)) by (by rewrite E).
  by rewrite (Qcompare_comp _ _ E' _ _ (Qeq_refl (1 # 2))).
Qed.

(** A value on the grid is left where it is. *)
Lemma snap_on_grid (r x : Q) : ¬ r == 0 → Time.on_grid r x → snap r x == x.
Proof.
  intros Hr [k Hk]. unfold snap.
  assert (E : x / r == inject_Z k) by (rewrite Hk; field; exact Hr).
  rewrite (round_comp _ _ E), round_inject_Z. by rewrite Hk.
Qed.

Lemma snap_grid (r x : Q) : Time.on_grid r (snap r x).
Proof. eexists. reflexivity. Qed.
End Snap.

(** ** Span: length *)

(** C6, as stated, fails on a Span with zero events: [length()] does not
    answer zero, it raises [ValueError] (the [max] of an empty list). *)
Lemma span_length_of_empty_raises :
  Span.calculate_span_length (Span.mk [] (Time.mk 0 None)) = Raise ValueError ∧
  Span.length (Settings.mk None) (Span.mk [] (Time.mk 0 None))
  = Raise ValueError ∧
  Span.length (Settings.mk (Some (1 # 4)%Q))
              (Span.mk [] (Time.mk 0 (Some (1 # 4)%Q)))
  = Raise ValueError.
Proof. vm_compute. auto. Qed.

(** C6 (amended).  For every Span with at least one event, the natural
    length [calculate_span_length()] is the maximum over all events of
    (onset + duration), and [length()] is the [Time] built from it under
    the default resolution: the maximum itself when there is no default
    grid or the maximum lies on it. *)
Theorem span_length_is_max_end (settings : Settings.t) (s : Span.t) :
  Span._events s ≠ [] →
  ∃ m, Span.calculate_span_length s = Ok m ∧
       (∃ e, e ∈ Span._events s ∧ m = end_position e) ∧
       (∀ e, e ∈ Span._events s → (end_position e <= m)%Q) ∧
       Span.length settings s = Time.new settings (Time.OfNum m) ∧
       (Settings.resolution settings = None →
        Span.length settings s = Ok (Time.mk m None)) ∧
       (∀ r, Settings.resolution settings = Some r → ¬ (r == 0)%Q →
             Time.on_grid r m →
             ∃ t, Span.length settings s = Ok t ∧
                  (Time.in_beats t == m)%Q ∧ Time.resolution t = Some r).
Proof.
  intros Hne.
  destruct (max_list_spec (map end_position (Span._events s))) as (m & Hm & Hin & Hmax).
  { by destruct (Span._events s). }
  exists m. rewrite calculate_span_length_ends.
  split; [exact Hm|]. split; [|split; [|split; [|split]]].
  - apply list_elem_of_fmap in Hin as (e & -> & He). eauto.
  - intros e He. apply Hmax. apply list_elem_of_fmap. eauto.
  - unfold Span.length. rewrite calculate_span_length_ends, Hm. reflexivity.
  - intros Hnone. unfold Span.length. rewrite calculate_span_length_ends, Hm.
    cbn [mbind result_bind]. unfold Time.new, Time.init. by rewrite Hnone.
  - intros r Hr Hr0 Hgrid. unfold Span.length.
    rewrite calculate_span_length_ends, Hm. cbn [mbind result_bind].
    unfold Time.new, Time.init. rewrite Hr.
    rewrite quantize_to_Ok by exact Hr0. cbn.
    eexists. split; [reflexivity|]. split; [|reflexivity].
    cbn. by apply snap_on_grid.
Qed.

Lemma span_length_is_max_end_witness :
  let t0 := Time.mk 0 (Some (1 # 4)%Q) in
  let t1 := Time.mk 1 (Some (1 # 4)%Q) in
  let t2 := Time.mk 2 (Some (1 # 4)%Q) in
  let s := Span.mk [Event.mk (ARest (Rest.mk t1)) t0;
                    Event.mk (ANote (Note.mk (Pitch.mk 0 (Some 4)) t2)) t1;
                    Event.mk (ARest (Rest.mk t1)) t1] t0 in
  ∃ t, Span.length (Settings.mk (Some (1 # 4)%Q)) s = Ok t ∧
       (Time.in_beats t == 3)%Q.
Proof.
  intros t0 t1 t2 s.
  destruct (span_length_is_max_end (Settings.mk (Some (1 # 4)%Q)) s)
    as (m & Hm & _ & _ & _ & _ & Hgrid); [discriminate|].
  vm_compute in Hm. injection Hm as <-.
  destruct (Hgrid (1 # 4)%Q) as (t & Ht & Hbeats & _);
    [reflexivity|discriminate|exists 12%Z; reflexivity|].
  exists t. split; [exact Ht|]. rewrite Hbeats. reflexivity.
Defined.

(** ** Span: padding to a target length *)

Section Padding.
Local Open Scope Q_scope.
Context (settings : Settings.t) (Husable : usable settings).

Lemma init_offset_Ok (offset : Span.value) (off : Time.t) :
  offset_time settings offset = Some off →
  match offset with
  | Span.VInt n => Time.new settings (Time.OfNum (inject_Z n))
  | Span.VFloat x => Time.new settings (Time.OfNum x)
  | Span.VTime time => Time.new settings (Time.OfTime time)
  | _ => Raise ValueError
  end = Ok off.
Proof.
  destruct offset; cbn [offset_time]; try discriminate; intros [= <-].
  - by apply time_new_num.
  - by apply time_new_num.
  - by apply time_new_time.
Qed.

(** On its own, [pad_to_length] does what the constructor is meant to do
    with a target above the natural length: one Rest of the missing
    duration, at the natural end. *)
Lemma pad_to_length_appends_rest (s : Span.t) (natural target : Q) :
  Span.calculate_span_length s = Ok natural →
  natural < target →
  Span.pad_to_length settings s target
  = Ok (Span.mk (Span._events s
                 ++ [Event.mk (ARest (Rest.mk (time_of settings (target - natural))))
                              (time_of settings natural)])
                (Span._offset s)).
Proof.
  intros Hlen Hlt. unfold Span.pad_to_length. rewrite Hlen.
  cbn [mbind result_bind].
  assert (E1 : Num.ltb target natural = false).
  { apply ltb_ge. by apply Qlt_le_weak. }
  assert (E2 : Num.leb (target - natural) 0 = false).
  { apply leb_gt. rewrite <- (Qplus_opp_r natural).
    apply Qplus_lt_l. exact Hlt. }
  rewrite E1, E2, rest_init_num, time_new_num by exact Husable. reflexivity.
Qed.

Lemma pad_to_length_noop (s : Span.t) (natural target : Q) :
  Span.calculate_span_length s = Ok natural →
  target <= natural →
  Span.pad_to_length settings s target = Ok s.
Proof.
  intros Hlen Hle. unfold Span.pad_to_length. rewrite Hlen.
  cbn [mbind result_bind].
  destruct (Num.ltb target natural) eqn:E1; [reflexivity|].
  assert (E2 : Num.leb (target - natural) 0 = true).
  { apply leb_le. rewrite <- (Qplus_opp_r natural).
    apply Qplus_le_l. exact Hle. }
  by rewrite E2.
Qed.
End Padding.

(** C2: what the code does.  The constructor checks the length it
    measured before padding once more after padding, so a target that
    exceeds the natural length by more than the tolerance always ends in an
    [AssertionError], although [pad_to_length] has appended the Rest. *)
Theorem span_init_target_above_natural_asserts
  (settings : Settings.t) (items : list Span.item) (offset : Span.value)
  (off : Time.t) (natural target : Q) (sort_ : bool) :
  usable settings →
  offset_time settings offset = Some off →
  Span.calculate_span_length (Span.mk (map item_event items) off) = Ok natural →
  (natural < target - (1 # 10000))%Q →
  Span.init settings items offset (Some target) sort_ = Raise AssertionError.
Proof.
  intros Husable Hoff Hlen Hlt. unfold Span.init.
  rewrite (init_offset_Ok settings Husable offset off Hoff).
  cbn [mbind result_bind]. rewrite init_loop. cbn [mbind result_bind app].
  rewrite Hlen. cbn [mbind result_bind].
  assert (Hlt' : (natural < target)%Q).
  { eapply Qlt_trans; [exact Hlt|].
    rewrite <- (Qplus_0_r target) at 2. apply Qplus_lt_r. reflexivity. }
  assert (E1 : Num.leb natural (target + (1 # 10000)) = true).
  { apply leb_le. apply Qlt_le_weak. eapply Qlt_trans; [exact Hlt'|].
    rewrite <- (Qplus_0_r target) at 1. apply Qplus_lt_r. reflexivity. }
  rewrite E1. cbn [assert mbind result_bind].
  rewrite (pad_to_length_appends_rest settings Husable _ natural target Hlen Hlt').
  cbn [mbind result_bind].
  assert (E2 : Num.leb (target - (1 # 10000)) natural = false) by (by apply leb_gt).
  by rewrite E2.
Qed.

Lemma span_init_target_above_natural_asserts_witness :
  let st := Settings.mk (Some (1 # 4)%Q) in
  let t0 := Time.mk 0 (Some (1 # 4)%Q) in
  let t1 := Time.mk 1 (Some (1 # 4)%Q) in
  let c4 := ANote (Note.mk (Pitch.mk 0 (Some 4)) t1) in
  Note.init st (Pitch.OfStr "C4") (Time.OfNum 1) ≫= (fun n => Ok (ANote n))
  = Ok (ANote (Note.mk (Pitch.mk 0 (Some 4)) (time_of st 1))) ∧
  Span.init st [Span.APair c4 t0] (Span.VInt 0) (Some 4%Q) true
  = Raise AssertionError.
Proof.
  intros st t0 t1 c4. split; [vm_compute; reflexivity|].
  apply (span_init_target_above_natural_asserts st [Span.APair c4 t0]
           (Span.VInt 0) (time_of st 0) 1 4 true).
  - intros r [= <-]. discriminate.
  - reflexivity.
  - reflexivity.
  - reflexivity.
Defined.

(** ** Span: overlay of something that is not a Span *)

Lemma list_getitem_head {A} (x : A) (l : list A) : list_getitem (x :: l) 0 = Ok x.
Proof.
  unfold list_getitem. cbn [length].
  destruct (Z.ltb_spec 0 0); [lia|].
  destruct (Z.leb_spec 0 0); [|lia].
  destruct (Z.ltb_spec 0 (Z.of_nat (S (length l)))); [|lia].
  reflexivity.
Qed.

(** C8: what the code does when the value that is not a Span comes
    first.  [overlay] calls [move_offset_to_events] on (a copy of) its
    first argument before any check, so the failure is an
    [AttributeError], not the [ValueError] of [_overlay_two_spans]. *)
Theorem overlay_first_not_a_span
  (settings : Settings.t) (v : Span.value) (rest : list Span.value) :
  Span.type v ≠ Span_ →
  Span.overlay settings (v :: rest) = Raise AttributeError.
Proof.
  intros Hv. unfold Span.overlay. rewrite list_getitem_head.
  cbn [mbind result_bind]. destruct v; try reflexivity.
  by destruct Hv.
Qed.

Lemma overlay_first_not_a_span_witness :
  let st := Settings.mk (Some (1 # 4)%Q) in
  let t0 := Time.mk 0 (Some (1 # 4)%Q) in
  let t1 := Time.mk 1 (Some (1 # 4)%Q) in
  let s := Span.mk [Event.mk (ARest (Rest.mk t1)) t0] t0 in
  Span.overlay st [Span.VInt 5; Span.VSpan s] = Raise AttributeError ∧
  Span.overlay st [Span.VSpan s; Span.VInt 5] = Raise ValueError.
Proof.
  intros st t0 t1 s. split; [|vm_compute; reflexivity].
  apply (overlay_first_not_a_span st (Span.VInt 5) [Span.VSpan s]).
  discriminate.
Defined.

(** ** Span: slicing *)

Section Slices.
Local Open Scope Q_scope.
Context (s : Span.t) (r natural : Q).
Context (Hlen : Span.calculate_span_length s = Ok natural) (Hr : 0 < r).

Local Abbreviation advance := (fun t : Q => t + r).




End Slices.




(** ** Span: sorting *)

Section SpanSort.
Local Open Scope Z_scope.

Lemma midi_pitch_assumed (p : Pitch.t) (a : Z) :
  Pitch.midi_pitch p (Some a)
  = Ok (Pitch.to_midi_pitch (Pitch._relative_pitch p) (default a (Pitch._octave p))).
Proof. unfold Pitch.midi_pitch. by destruct (Pitch._octave p). Qed.

(** The key of an event: its onset in resolution steps, then
    [sort_pitch]. *)
Lemma sort_key_steps (e : Event.t) :
  Span.sort_key e
  = (steps ← Time.in_resolution_steps (Event.time e); Ok (steps, sort_pitch e)).
Proof.
  unfold Span.sort_key, sort_pitch.
  destruct (Time.in_resolution_steps (Event.time e)); [|reflexivity].
  cbn [mbind result_bind].
  destruct (Event.pitch e) as [p|]; [|reflexivity].
  by rewrite midi_pitch_assumed.
Qed.

Lemma sort_key_Ok (e : Event.t) (k : Z * Z) :
  Span.sort_key e = Ok k ↔
  Time.in_resolution_steps (Event.time e) = Ok k.1 ∧ k.2 = sort_pitch e.
Proof.
  rewrite sort_key_steps, bind_Ok. destruct k as [k1 k2]. cbn [fst snd]. split.
  - intros (steps & Hs & [= <- <-]). auto.
  - intros [Hs ->]. eauto.
Qed.

Lemma quantized_onset_steps (e : Event.t) :
  quantized_onset e → ∃ steps, Time.in_resolution_steps (Event.time e) = Ok steps.
Proof.
  intros (r & Hr & Hr0). rewrite (in_resolution_steps_Ok _ r Hr Hr0). eauto.
Qed.


End SpanSort.

(** What [sort()] does to a Span whose onsets are quantized: it succeeds
    and the events come out ordered by their keys. *)
Lemma span_sort_by_key (s : Span.t) :
  (∀ e, e ∈ Span._events s → quantized_onset e) →
  ∃ s', Span.sort s = Ok s' ∧
        Span._offset s' = Span._offset s ∧
        Span._events s' ≡ₚ Span._events s ∧
        (∀ i j ei ej, (i < j)%nat →
           Span._events s' !! i = Some ei → Span._events s' !! j = Some ej →
           ∃ si sj, Time.in_resolution_steps (Event.time ei) = Ok si ∧
                    Time.in_resolution_steps (Event.time ej) = Ok sj ∧
                    si <= sj ∧ (si = sj → sort_pitch ei <= sort_pitch ej)).
Proof.
  intros Hq.
  assert (Hkeys : ∀ e, e ∈ Span._events s → ∃ k, Span.sort_key e = Ok k).
  { intros e He. destruct (quantized_onset_steps e (Hq e He)) as [steps Hs].
    exists (steps, sort_pitch e). by apply sort_key_Ok. }
  destruct (sort_total Span.sort_key _ Hkeys) as [events Hsort].
  pose proof (sort_spec Span.sort_key _ _ Hsort) as (Hperm & Hord & _).
  exists (Span.mk events (Span._offset s)).
  unfold Span.sort. rewrite Hsort. cbn [mbind result_bind Span._events Span._offset].
  split; [reflexivity|]. split; [reflexivity|]. split; [exact Hperm|].
  intros i j ei ej Hij Hi Hj.
  assert (Hsteps : ∀ k e, events !! k = Some e →
            ∃ steps, Time.in_resolution_steps (Event.time e) = Ok steps).
  { intros k e Hk. apply quantized_onset_steps, Hq.
    rewrite <- Hperm. eapply list_elem_of_lookup_2, Hk. }
  destruct (Hsteps i ei Hi) as [si Hsi], (Hsteps j ej Hj) as [sj Hsj].
  exists si, sj. split; [exact Hsi|]. split; [exact Hsj|].
  assert (Hk : PyList.key_le (si, sort_pitch ei) (sj, sort_pitch ej)).
  { apply (Hord i j ei ej); auto; by apply sort_key_Ok. }
  unfold PyList.key_le in Hk. cbn [fst snd] in Hk. lia.
Qed.

(** [int] reads the value of a number, not its representation. *)
Lemma int_comp (x y : Q) : (x == y)%Q → Num.int x = Num.int y.
Proof.
  unfold Num.int, Qeq. destruct x as [xn xd], y as [yn yd]. cbn [Qnum Qden].
  intros H.
  rewrite <- (Z.quot_mul_cancel_r xn (Z.pos xd) (Z.pos yd)) by lia.
  rewrite <- (Z.quot_mul_cancel_r yn (Z.pos yd) (Z.pos xd)) by lia.
  f_equal; lia.
Qed.





(** An event whose onset is unquantized has no key: [sort()] raises and
    there is no sorted Span. *)
Lemma span_sort_unquantized_raises (s : Span.t) (e : Event.t) :
  e ∈ Span._events s →
  Time._resolution (Event.time e) = None →
  ∃ x, Span.sort s = Raise x.
Proof.
  intros He Hnone.
  assert (Hkey : Span.sort_key e = Raise ValueError).
  { rewrite sort_key_steps. unfold Time.in_resolution_steps. by rewrite Hnone. }
  destruct (for_each_key_Raise Span.sort_key _ e ValueError He Hkey) as [x Hx].
  exists x. unfold Span.sort, PyList.sort. by rewrite Hx.
Qed.

(** ** Span: overlay *)

Section Overlay.
Local Open Scope Q_scope.
Context (settings : Settings.t) (r : Q).
Context (Hres : Settings.resolution settings = Some r) (Hr : ¬ r == 0).

Lemma usable_resolution : usable settings.
Proof. intros r' Hr'. rewrite Hres in Hr'. by injection Hr' as <-. Qed.

Lemma time_of_resolution (x : Q) : time_of settings x = Time.mk (snap r x) (Some r).
Proof. unfold time_of. by rewrite Hres. Qed.

Lemma int_of_integer (x : Q) (k : Z) : x == inject_Z k → Num.int x = k.
Proof.
  unfold Qeq, Num.int. cbn [Qnum Qden inject_Z]. intros E.
  rewrite Z.mul_1_r in E. rewrite E. apply Z.quot_mul. lia.
Qed.

(** The onset that [Time(x)] stores is the step count times the grid. *)
Lemma time_of_steps (x : Q) :
  Time.in_resolution_steps (time_of settings x) = Ok (Num.round (x / r)).
Proof.
  rewrite time_of_resolution.
  rewrite (in_resolution_steps_Ok (Time.mk (snap r x) (Some r)) r eq_refl Hr).
  cbn [Time._time].
  f_equal. apply int_of_integer. unfold snap. field. exact Hr.
Qed.

Lemma time_of_beats (x : Q) :
  Time.in_beats (time_of settings x) = r * inject_Z (Num.round (x / r)).
Proof. by rewrite time_of_resolution. Qed.

Lemma time_of_zero : Time.in_beats (time_of settings 0) == 0.
Proof.
  rewrite time_of_resolution. cbn [Time.in_beats Time._time].
  apply snap_on_grid; [exact Hr|]. exists 0%Z. ring.
Qed.

Lemma time_eq_refl_quantized (x : Q) :
  Time.eq (time_of settings x) (time_of settings x) = Ok true.
Proof.
  unfold Time.eq. rewrite time_of_steps. rewrite time_of_resolution.
  cbn [Time._resolution Time.resolution_eqb].
  assert (E : Num.eqb r r = true) by (by apply eqb_eq).
  rewrite E. cbn [mbind result_bind]. by rewrite Z.eqb_refl.
Qed.

Lemma shift_event_quantized (off : Time.t) (e : Event.t) :
  quantized_onset (shift_event settings off e).
Proof.
  exists r. unfold shift_event. cbn [Event.time Event._time].
  rewrite time_of_resolution. auto.
Qed.

Lemma move_offset_to_events_Ok (s : Span.t) :
  Span.move_offset_to_events settings s
  = Ok (Span.mk (absolute_events settings s) (time_of settings 0)).
Proof.
  unfold Span.move_offset_to_events.
  rewrite (for_each_Ok _ (shift_event settings (Span._offset s))).
  - cbn [mbind result_bind].
    by rewrite (time_new_num settings usable_resolution).
  - intros e _. by rewrite (time_add_Ok settings usable_resolution).
Qed.

Lemma overlay_two_spans_Ok (a b : Span.t) :
  Span._overlay_two_spans settings (Span.VSpan a) (Span.VSpan b)
  = Ok (Span.mk (Span._events a ++ absolute_events settings b) (Span._offset a)).
Proof.
  unfold Span._overlay_two_spans.
  rewrite (for_each_Ok _ (shift_event settings (Span.offset b))); [reflexivity|].
  intros e _. by rewrite (time_add_Ok settings usable_resolution).
Qed.

Lemma overlay_loop (spans : list Span.t) (acc : Span.t) :
  foldl (fun acc span =>
           result ← acc;
           Span._overlay_two_spans settings (Span.VSpan result) span)
        (Ok acc) (Span.VSpan <$> spans)
  = Ok (Span.mk (Span._events acc ++ concat (absolute_events settings <$> spans))
                (Span._offset acc)).
Proof.
  revert acc. induction spans as [|b spans IH]; intros acc; cbn [fmap list_fmap foldl concat].
  - rewrite app_nil_r. by destruct acc.
  - cbn [mbind result_bind]. rewrite overlay_two_spans_Ok, IH.
    cbn [Span._events Span._offset]. by rewrite <- app_assoc.
Qed.

(** X20.  A later argument that is not a Span is rejected by
    [_overlay_two_spans] with a [ValueError], whatever follows it: with
    Spans before it, [overlay] raises [ValueError]. *)
Lemma overlay_later_not_a_span
  (s0 : Span.t) (spans : list Span.t) (v : Span.value) (rest : list Span.value) :
  Span.type v ≠ Span_ →
  Span.overlay settings (Span.VSpan s0 :: (Span.VSpan <$> spans) ++ v :: rest)
  = Raise ValueError.
Proof.
  intros Hv. unfold Span.overlay. rewrite list_getitem_head.
  cbn [mbind result_bind drop]. rewrite move_offset_to_events_Ok.
  cbn [mbind result_bind]. rewrite drop_0, foldl_app, overlay_loop. cbn [foldl].
  assert (E : ∀ acc, Span._overlay_two_spans settings (Span.VSpan acc) v
                     = Raise ValueError).
  { intros acc. destruct v; try reflexivity. by destruct Hv. }
  cbn [mbind result_bind]. rewrite E.
  assert (Hstuck : ∀ l, foldl (fun acc span =>
                                 result ← acc;
                                 Span._overlay_two_spans settings (Span.VSpan result) span)
                              (Raise ValueError) l = Raise ValueError).
  { induction l as [|x l IH]; [reflexivity|exact IH]. }
  by rewrite Hstuck.
Qed.


End Overlay.

Lemma length_absolute_events (settings : Settings.t) (spans : list Span.t) :
  length (concat (absolute_events settings <$> spans))
  = sum_list_with Span.num_events spans.
Proof.
  induction spans as [|s spans IH]; [reflexivity|].
  cbn [fmap list_fmap concat sum_list_with].
  rewrite length_app, IH. unfold absolute_events, Span.num_events.
  by rewrite length_map.
Qed.

Lemma absolute_events_shifted (settings : Settings.t) (spans : list Span.t) :
  Forall (fun e => ∃ off e0, e = shift_event settings off e0)
         (concat (absolute_events settings <$> spans)).
Proof.
  induction spans as [|s spans IH]; [constructor|].
  cbn [fmap list_fmap concat]. apply Forall_app. split; [|exact IH].
  unfold absolute_events. apply Forall_fmap, Forall_true. intros e. cbn. eauto.
Qed.




(** ** The repository's own test

    [TestSpan.test] of [test/test_span.py], under a default resolution of a
    quarter beat: five events, a target length equal to the natural
    length, an offset of 4.  The constructor succeeds, keeps the events in
    the order given, and reports length 4 and offset 4. *)

Example test_span_test :
  let st := Settings.mk (Some (1 # 4)%Q) in
  let at_ (x : Q) := Time.mk x (Some (1 # 4)%Q) in
  let note rel oct (d : Q) := ANote (Note.mk (Pitch.mk rel (Some oct)) (at_ d)) in
  let events :=
    [Span.APair (note 0 4 (4 # 4)) (at_ (0 # 4));
     Span.APair (note 7 5 (4 # 4)) (at_ (0 # 4));
     Span.APair (ARest (Rest.mk (at_ (4 # 4)))) (at_ (4 # 4));
     Span.APair (note 0 4 (8 # 4)) (at_ (8 # 4));
     Span.APair (note 9 4 (8 # 4)) (at_ (8 # 4))] in
  (n ← Note.init st (Pitch.OfStr "G5") (Time.OfNum 1); Ok (ANote n))
  = Ok (note 7 5 (4 # 4)) ∧
  Span.init st events (Span.VInt 4) (Some 4%Q) true
  = Ok (Span.mk (item_event <$> events) (at_ (16 # 4))) ∧
  (s ← Span.init st events (Span.VInt 4) (Some 4%Q) true; Span.length st s)
  = Ok (at_ (16 # 4)).
Proof. vm_compute. auto. Qed.

(** * Further properties of the code *)

(** ** Pitch: construction, MIDI numbers, printing and parsing *)

Ltac wf_concrete := unfold Pitch.wf; cbn; lia.

Lemma pitch_init_wf_witness :
  ∃ p, Pitch.init (Pitch.OfStr "E#7") None = Ok p ∧ Pitch.wf p.
Proof.
  exists (Pitch.mk 5 (Some 7)).
  assert (H : Pitch.init (Pitch.OfStr "E#7") None = Ok (Pitch.mk 5 (Some 7)))
    by (vm_compute; reflexivity).
  split; [exact H|].
  apply (pitch_init_wf (Pitch.OfStr "E#7") None); [discriminate|exact H].
Defined.

(** X2.  The MIDI number identifies the pitch: two well-formed pitches
    with the same [midi_pitch()] (no octave assumed) are the same pitch
    class in the same octave, and the number is at least 12. *)
Theorem midi_pitch_identifies_pitch (p q : Pitch.t) (m : Z) :
  Pitch.wf p → Pitch.wf q →
  Pitch.midi_pitch p None = Ok m →
  Pitch.midi_pitch q None = Ok m →
  p = q ∧ 12 <= m.
Proof.
  destruct p as [rp [op|]], q as [rq [oq|]]; unfold Pitch.wf, Pitch.midi_pitch;
    cbn [Pitch._relative_pitch Pitch._octave]; try discriminate.
  unfold Pitch.to_midi_pitch. intros [Hp Hop] [Hq Hoq] [= <-] [= E].
  assert (rp = rq ∧ op = oq) as [-> ->] by lia. split; [reflexivity|lia].
Qed.

Lemma midi_pitch_identifies_pitch_witness :
  Pitch.mk 9 (Some 4) = Pitch.mk 9 (Some 4) ∧ 12 <= 69.
Proof.
  apply (midi_pitch_identifies_pitch (Pitch.mk 9 (Some 4)) (Pitch.mk 9 (Some 4)) 69);
    first [reflexivity | wf_concrete].
Defined.

(** X3.  [copy()] and [strip_octave()] rebuild the pitch through the
    integer branch of the constructor: on a well-formed pitch [copy()]
    returns the pitch itself and [strip_octave()] its pitch class without
    octave; on any other pitch [copy()] raises [ValueError]. *)
Theorem pitch_copy_checks_range (p : Pitch.t) :
  (Pitch.wf p →
   Pitch.copy p = Ok p ∧
   Pitch.strip_octave p = Ok (Pitch.mk (Pitch._relative_pitch p) None)) ∧
  (¬ Pitch.wf p → Pitch.copy p = Raise ValueError).
Proof.
  destruct p as [rel oct]. unfold Pitch.wf, Pitch.copy, Pitch.strip_octave, Pitch.init.
  cbn [Pitch._relative_pitch Pitch._octave].
  destruct (Z.ltb_spec rel 0), (Z.ltb_spec 11 rel); cbn [orb];
    destruct oct as [o|]; try destruct (Z.ltb_spec o 0);
    (split; [intros [? ?]; try lia; auto | intros Hn; try reflexivity; exfalso; apply Hn; lia]).
Qed.

Lemma pitch_copy_checks_range_witness :
  Pitch.copy (Pitch.mk 3 (Some 2)) = Ok (Pitch.mk 3 (Some 2)) ∧
  Pitch.copy (Pitch.mk 12 None) = Raise ValueError.
Proof.
  split.
  - apply (pitch_copy_checks_range (Pitch.mk 3 (Some 2))). wf_concrete.
  - apply (pitch_copy_checks_range (Pitch.mk 12 None)). intros [H _]. cbn in H. lia.
Defined.



(** X5.  [compare] does not do what its docstring says (negative, zero,
    positive): the octave of [b] is added, not subtracted, so for two
    well-formed pitches in octaves 1 and above the result is at least 13,
    whatever their order, also for a pitch compared with itself. *)
Theorem pitch_compare_is_positive (a b : Pitch.t) (oa ob : Z) :
  Pitch.wf a → Pitch.wf b →
  Pitch._octave a = Some oa → Pitch._octave b = Some ob →
  1 <= oa → 1 <= ob →
  ∃ c, Pitch.compare a b = Ok c ∧ 13 <= c.
Proof.
  unfold Pitch.wf, Pitch.compare. intros [Ha _] [Hb _] -> -> Hoa Hob.
  eexists. split; [reflexivity|]. lia.
Qed.

Lemma pitch_compare_is_positive_witness :
  ∃ c, Pitch.compare (Pitch.mk 0 (Some 4)) (Pitch.mk 7 (Some 5)) = Ok c ∧ 13 <= c.
Proof.
  apply (pitch_compare_is_positive (Pitch.mk 0 (Some 4)) (Pitch.mk 7 (Some 5)) 4 5);
    first [reflexivity | lia | wf_concrete].
Defined.

(** *** Printing an octave and reading it back *)

Lemma pretty_N_char_digit (d : N) :
  (d < 10)%N →
  Str.isdigit (pretty_N_char d) = true ∧ Str.digit_val (pretty_N_char d) = Z.of_N d.
Proof.
  intros Hd.
  assert (d = 0 ∨ d = 1 ∨ d = 2 ∨ d = 3 ∨ d = 4 ∨ d = 5 ∨ d = 6 ∨ d = 7
          ∨ d = 8 ∨ d = 9)%N as H by lia.
  repeat destruct H as [->|H]; try subst d; split; reflexivity.
Qed.

Lemma string_app_nil (b : string) : "" +:+ b = b.
Proof. reflexivity. Qed.

Lemma string_app_cons (x : ascii) (a b : string) :
  String x a +:+ b = String x (a +:+ b).
Proof. reflexivity. Qed.

Lemma string_app_assoc (a b c : string) : (a +:+ b) +:+ c = a +:+ (b +:+ c).
Proof.
  induction a as [|x a IH]; [reflexivity|].
  by rewrite !string_app_cons, IH.
Qed.

Lemma pretty_N_go_app (x : N) : ∀ s, pretty_N_go x s = pretty_N_go x "" +:+ s.
Proof.
  induction (N.lt_wf_0 x) as [x _ IH]. intros s.
  destruct (N.eq_dec x 0%N) as [->|Hx]; [reflexivity|].
  rewrite !(pretty_N_go_step x) by lia.
  rewrite IH by (apply N.div_lt; lia).
  rewrite (IH (x `div` 10)%N (ltac:(apply N.div_lt; lia))
              (String (pretty_N_char (x `mod` 10)) "")).
  by rewrite string_app_assoc.
Qed.

(** Reading a run of digits followed by one more digit. *)
Lemma int_from_snoc (s : string) (c : ascii) :
  Str.isdigit c = true →
  ∀ acc v, Str.int_from acc s = Ok v →
  (∀ a, a ∈ String.list_ascii_of_string s → Str.isdigit a = true) →
  Str.int_from acc (s +:+ String c "") = Ok (10 * v + Str.digit_val c).
Proof.
  intros Hc. induction s as [|a s IH]; intros acc v Hv Hall.
  - cbn in Hv. injection Hv as <-. rewrite string_app_nil. cbn. by rewrite Hc.
  - rewrite string_app_cons. cbn [Str.int_from] in Hv |- *.
    assert (Ha : Str.isdigit a = true) by (apply Hall; left).
    rewrite Ha in Hv |- *. apply IH; [exact Hv|].
    intros b Hb. apply Hall. by right.
Qed.

Lemma pretty_N_go_digits (x : N) :
  (∀ a, a ∈ String.list_ascii_of_string (pretty_N_go x "") → Str.isdigit a = true) ∧
  Str.int_from 0 (pretty_N_go x "") = Ok (Z.of_N x) ∧
  ((0 < x)%N → pretty_N_go x "" ≠ ""%string).
Proof.
  induction (N.lt_wf_0 x) as [x _ IH].
  destruct (N.eq_dec x 0%N) as [->|Hx].
  { split; [|split]; [intros a Ha; inversion Ha|reflexivity|lia]. }
  rewrite (pretty_N_go_step x) by lia. rewrite pretty_N_go_app.
  destruct (IH (x `div` 10)%N) as (Hall & Hval & _); [apply N.div_lt; lia|].
  destruct (pretty_N_char_digit (x `mod` 10)%N) as [Hd Hv];
    [apply N.mod_lt; lia|].
  split; [|split].
  - intros a Ha.
    assert (Hin : a ∈ String.list_ascii_of_string (pretty_N_go (x `div` 10) "")
                  ∨ a = pretty_N_char (x `mod` 10)).
    { revert Ha. generalize (pretty_N_go (x `div` 10) ""). intros s.
      induction s as [|b s IHs];
        rewrite ?string_app_nil, ?string_app_cons; cbn [list_ascii_of_string].
      - intros Ha. apply list_elem_of_singleton in Ha. by right.
      - intros Ha. apply elem_of_cons in Ha as [->|Ha]; [left; left|].
        destruct (IHs Ha) as [?|?]; [left; by right|by right]. }
    destruct Hin as [Hin| ->]; [by apply Hall|exact Hd].
  - rewrite (int_from_snoc _ _ Hd 0 _ Hval Hall). f_equal. rewrite Hv.
    pose proof (N.div_mod x 10%N (ltac:(lia))) as Hdm. lia.
  - intros _. destruct (pretty_N_go (x `div` 10) "");
      rewrite ?string_app_nil, ?string_app_cons; discriminate.
Qed.

(** [int(str(o)) == o] for an octave [o >= 0], and [str(o)] opens with a
    digit. *)
Lemma int_of_pretty (o : Z) :
  0 <= o →
  Str.int (pretty o) = Ok o ∧
  ∃ c d, pretty o = String c d ∧ Str.isdigit c = true.
Proof.
  intros Ho. destruct o as [|x|x]; [split; [reflexivity|by exists "0"%char, ""%string]| |lia].
  unfold pretty, pretty_Z, pretty, pretty_positive, pretty, pretty_N.
  destruct (decide (N.pos x = 0%N)) as [|_]; [discriminate|].
  destruct (pretty_N_go_digits (N.pos x)) as (Hall & Hval & Hne).
  destruct (pretty_N_go (N.pos x) "") as [|c d] eqn:E; [by destruct Hne|].
  assert (Hc : Str.isdigit c = true) by (apply Hall; left).
  split; [|eauto].
  cbn [Str.int Str.int_from] in Hval |- *. rewrite Hc in Hval |- *.
  rewrite Z.mul_0_r, Z.add_0_l in Hval. exact Hval.
Qed.

(** Parsing a name without digits followed by a numeral. *)
Lemma first_digit_append (n d : string) :
  Pitch.first_digit n = String.length n →
  Pitch.first_digit (n +:+ d) = (String.length n + Pitch.first_digit d)%nat ∧
  Str.take (String.length n) (n +:+ d) = n ∧
  substring (String.length n) (String.length d) (n +:+ d) = d ∧
  String.length (n +:+ d) = (String.length n + String.length d)%nat.
Proof.
  induction n as [|a n IH];
    rewrite ?string_app_nil, ?string_app_cons; cbn [String.length Pitch.first_digit].
  - intros _. unfold Str.take. split; [reflexivity|]. split; [by destruct d|].
    split; [|reflexivity].
    induction d as [|b d IHd]; cbn [String.length substring]; [reflexivity|by rewrite IHd].
  - destruct (Str.isdigit a); [discriminate|]. intros [= Hn].
    destruct (IH Hn) as (H1 & H2 & H3 & H4).
    unfold Str.take in *. cbn [substring Nat.add]. by rewrite H1, H2, H3, H4.
Qed.

Lemma parse_name_with_octave (n : string) (rel o : Z) :
  Pitch.first_digit n = String.length n →
  Pitch.str_to_relative_pitch !! n = Some rel →
  0 <= rel < 12 → 0 <= o →
  Pitch.pitch_string_to_pitch_octave_pair (n +:+ pretty o) = Ok (rel, Some o).
Proof.
  intros Hn Hrel Hr Ho.
  destruct (int_of_pretty o Ho) as (Hint & c & d & Hd & Hc).
  destruct (first_digit_append n (pretty o) Hn) as (H1 & H2 & H3 & H4).
  unfold Pitch.pitch_string_to_pitch_octave_pair.
  assert (Hpos : Pitch.first_digit (pretty o) = O) by (rewrite Hd; cbn; by rewrite Hc).
  rewrite H1, Hpos, Nat.add_0_r, H4.
  assert (Hlen : (String.length n =? String.length n + String.length (pretty o))%nat = false).
  { apply Nat.eqb_neq. rewrite Hd. cbn. lia. }
  rewrite Hlen. unfold Str.drop. rewrite H4, H2.
  replace (String.length n + String.length (pretty o) - String.length n)%nat
    with (String.length (pretty o)) by lia.
  rewrite H3, Hint. cbn [fmap result_fmap mbind result_bind]. rewrite Hrel.
  cbn [mbind result_bind].
  destruct (Z.leb_spec 0 rel); [|lia]. destruct (Z.ltb_spec rel 12); [|lia].
  reflexivity.
Qed.

(** X6.  Printing a well-formed pitch and parsing the result gives the
    pitch back: [Pitch(p.name()) == p], with or without an octave. *)
Theorem pitch_name_reparses (p : Pitch.t) :
  Pitch.wf p → Pitch.reparse p = Ok p.
Proof.
  destruct p as [rel oct]. unfold Pitch.wf. cbn [Pitch._relative_pitch Pitch._octave].
  intros [Hrel Hoct].
  assert (rel = 0 ∨ rel = 1 ∨ rel = 2 ∨ rel = 3 ∨ rel = 4 ∨ rel = 5 ∨ rel = 6
          ∨ rel = 7 ∨ rel = 8 ∨ rel = 9 ∨ rel = 10 ∨ rel = 11) as H by lia.
  destruct oct as [o|].
  - unfold Pitch.reparse, Pitch.name. cbn [Pitch._relative_pitch Pitch._octave].
    repeat destruct H as [->|H]; try subst rel;
      (match goal with
       | |- context [list_getitem Pitch.relative_pitch_to_str ?k] =>
           let n := eval vm_compute in (list_getitem Pitch.relative_pitch_to_str k) in
           change (list_getitem Pitch.relative_pitch_to_str k) with n
       end);
      cbn [mbind result_bind]; unfold Pitch.init; cbn [negb];
      (erewrite parse_name_with_octave;
       [cbn [mbind result_bind]; reflexivity
       | reflexivity | vm_compute; reflexivity | lia | exact Hoct]).
  - repeat destruct H as [->|H]; try subst rel; vm_compute; reflexivity.
Qed.

Lemma pitch_name_reparses_witness :
  Pitch.name (Pitch.mk 6 (Some 12)) = Ok "Gb12"%string ∧
  Pitch.reparse (Pitch.mk 6 (Some 12)) = Ok (Pitch.mk 6 (Some 12)).
Proof.
  split; [vm_compute; reflexivity|].
  apply (pitch_name_reparses (Pitch.mk 6 (Some 12))). wf_concrete.
Defined.

(** ** Time: quantization, equality, addition *)

Section MoreTimeFacts.
Local Open Scope Q_scope.

(** [round] stays within half a unit. *)
Lemma round_close (x : Q) : Qabs (x - inject_Z (Num.round x)) <= 1 # 2.
Proof.
  unfold Num.round.
  pose proof (Qfloor_le x) as Hlo. pose proof (Qlt_floor x) as Hhi.
  rewrite inject_Z_plus in Hhi. change (inject_Z 1) with 1 in Hhi.
  destruct (Qcompare (x - inject_Z (Qfloor x)) (1 # 2)) eqn:E.
  - apply Qeq_alt in E.
    destruct (Z.even (Qfloor x)).
    + apply Qabs_Qle_condition. split; lra.
    + rewrite inject_Z_plus. change (inject_Z 1) with 1.
      apply Qabs_Qle_condition. split; lra.
  - apply Qlt_alt in E. apply Qabs_Qle_condition. split; lra.
  - apply Qgt_alt in E. rewrite inject_Z_plus. change (inject_Z 1) with 1.
    apply Qabs_Qle_condition. split; lra.
Qed.

Lemma round_of_grid (r : Q) (k : Z) : ¬ r == 0 → Num.round (r * inject_Z k / r) = k.
Proof.
  intros Hr. rewrite <- (round_inject_Z k) at 2. apply round_comp. by field.
Qed.

Lemma snap_snap (r x : Q) : ¬ r == 0 → snap r (snap r x) = snap r x.
Proof. intros Hr. unfold snap at 1. unfold snap at 1. by rewrite round_of_grid. Qed.

Lemma eqb_sym (a b : Q) : Num.eqb a b = Num.eqb b a.
Proof.
  destruct (Num.eqb a b) eqn:E, (Num.eqb b a) eqn:E'; try reflexivity.
  - apply eqb_eq in E. apply eqb_neq in E'. by destruct E'.
  - apply eqb_neq in E. apply eqb_eq in E'. by destruct E.
Qed.

Lemma min_sym (a b : Q) : ¬ a == b → Num.min a b = Num.min b a.
Proof.
  intros Hne. unfold Num.min.
  destruct (Num.ltb b a) eqn:E, (Num.ltb a b) eqn:E'; try reflexivity.
  - apply ltb_lt in E, E'. lra.
  - apply ltb_ge in E, E'. destruct Hne. lra.
Qed.

Lemma div_same_zero (a b r r' : Q) :
  r == r' → (∃ x y, Num.div a r = Ok x ∧ Num.div b r' = Ok y ∧ ¬ r == 0)
            ∨ (Num.div a r = Raise ZeroDivisionError
               ∧ Num.div b r' = Raise ZeroDivisionError).
Proof.
  intros E. unfold Num.div.
  destruct (Num.eqb r 0) eqn:Hr.
  - right. apply eqb_eq in Hr.
    assert (Hr' : Num.eqb r' 0 = true) by (apply eqb_eq; by rewrite <- E).
    by rewrite Hr'.
  - left. apply eqb_neq in Hr.
    assert (Hr' : Num.eqb r' 0 = false) by (apply eqb_neq; by rewrite <- E).
    rewrite Hr'. eauto.
Qed.
End MoreTimeFacts.

(** X7.  Quantizing is idempotent: after [quantize_to(r)] a second
    [quantize_to(r)] stores the same value and resolution and returns a
    snapping error of zero. *)
Theorem quantize_to_idempotent (self once : Time.t) (r e : Q) :
  Time.quantize_to self (Some r) = Ok (once, e) →
  ∃ e', Time.quantize_to once (Some r) = Ok (once, e') ∧ (e' == 0)%Q.
Proof.
  unfold Time.quantize_to. intros H. apply bind_Ok in H as (q & Hq & H).
  injection H as <- <-. cbn [Time._time].
  assert (Hr : ¬ (r == 0)%Q).
  { intros Hr. by rewrite (div_zero _ _ Hr) in Hq. }
  rewrite div_Ok by exact Hr. cbn [mbind result_bind].
  unfold Num.div in Hq. apply eqb_neq in Hr as Hr'. rewrite Hr' in Hq.
  injection Hq as <-.
  rewrite round_of_grid by exact Hr.
  eexists. split; [reflexivity|].
  unfold Num.abs.
  assert (E : (r * inject_Z (Num.round (Time._time self / r))
               - r * inject_Z (Num.round (Time._time self / r)) == 0)%Q) by ring.
  by rewrite E.
Qed.

Lemma quantize_to_idempotent_witness :
  ∃ e', Time.quantize_to (Time.mk ((1 # 4) * inject_Z 1) (Some (1 # 4)%Q))
                         (Some (1 # 4)%Q)
        = Ok (Time.mk ((1 # 4) * inject_Z 1) (Some (1 # 4)%Q), e') ∧ (e' == 0)%Q.
Proof.
  apply (quantize_to_idempotent (Time.mk (3 # 10) None) _ (1 # 4)
           (Num.abs ((3 # 10) - (1 # 4) * inject_Z 1))).
  reflexivity.
Defined.


(** X9.  [==] on [Time] is symmetric, errors included: [a == b] and
    [b == a] return the same boolean or raise the same exception. *)
Theorem time_eq_symmetric (a b : Time.t) : Time.eq a b = Time.eq b a.
Proof.
  destruct a as [ta [ra|]], b as [tb [rb|]]; unfold Time.eq;
    cbn [Time._resolution Time._time Time.resolution_eqb Time.resolution_min];
    try reflexivity.
  - rewrite (eqb_sym rb ra).
    destruct (Num.eqb ra rb) eqn:E.
    + apply eqb_eq in E. unfold Time.in_resolution_steps.
      cbn [Time._resolution Time._time].
      destruct (div_same_zero ta tb ra rb E) as [(x & y & -> & -> & _)|[-> ->]];
        [|reflexivity].
      cbn [mbind result_bind]. by rewrite Z.eqb_sym.
    + apply eqb_neq in E. cbn [mbind result_bind].
      rewrite (min_sym rb ra) by (intros H; apply E; by symmetry).
      unfold Time.as_quantized, Time.quantize_to. cbn [Time._time].
      destruct (div_same_zero ta tb (Num.min ra rb) (Num.min ra rb) (Qeq_refl _))
        as [(x & y & -> & -> & Hm)|[-> ->]]; [|reflexivity].
      cbn [mbind result_bind fmap result_fmap fst].
      unfold Time.in_resolution_steps. cbn [Time._resolution Time._time].
      rewrite !div_Ok by exact Hm. cbn [mbind result_bind]. by rewrite Z.eqb_sym.
  - by rewrite eqb_sym.
Qed.

(** X10.  Two [Time] values with equal resolutions (not zero, or both
    [None]) and equal stored values compare equal with [==]; so every
    such [Time] is equal to itself. *)
Theorem time_eq_same_value (a b : Time.t) :
  Time.resolution_eqb (Time._resolution a) (Time._resolution b) = true →
  (∀ r, Time._resolution a = Some r → ¬ (r == 0)%Q) →
  (Time._time a == Time._time b)%Q →
  Time.eq a b = Ok true.
Proof.
  destruct a as [ta [ra|]], b as [tb [rb|]];
    cbn [Time._resolution Time._time Time.resolution_eqb];
    intros Hres Hr Ht; try discriminate; unfold Time.eq;
    cbn [Time._resolution Time._time Time.resolution_eqb]; rewrite ?Hres.
  - apply eqb_eq in Hres. specialize (Hr ra eq_refl).
    unfold Time.in_resolution_steps. cbn [Time._resolution Time._time].
    rewrite !div_Ok by (try exact Hr; by rewrite <- Hres).
    cbn [mbind result_bind]. f_equal. apply Z.eqb_eq, int_comp.
    by rewrite Ht, Hres.
  - f_equal. by apply eqb_eq.
Qed.

Lemma time_eq_same_value_witness :
  Time.eq (Time.mk (3 # 4) (Some (1 # 4)%Q)) (Time.mk (6 # 8) (Some (2 # 8)%Q))
  = Ok true.
Proof.
  apply time_eq_same_value.
  - reflexivity.
  - intros r [= <-]. discriminate.
  - reflexivity.
Defined.

(** X11.  [+] on [Time] is commutative, errors included, and under a
    usable default resolution it always succeeds with a [Time] at the
    default resolution, whatever the resolutions of the operands. *)
Theorem time_add_commutes (settings : Settings.t) (a b : Time.t) :
  Time.add settings a b = Time.add settings b a ∧
  (usable settings →
   ∃ c, Time.add settings a b = Ok c ∧
        Time._resolution c = Settings.resolution settings).
Proof.
  assert (Hq : (Time._time a + Time._time b)%Q = (Time._time b + Time._time a)%Q).
  { unfold Qplus. f_equal; lia. }
  split.
  - unfold Time.add. by rewrite Hq.
  - intros Hu. rewrite (time_add_Ok settings Hu). eexists. split; [reflexivity|].
    unfold time_of. by destruct (Settings.resolution settings).
Qed.

Lemma time_add_commutes_witness :
  ∃ c, Time.add (Settings.mk (Some (1 # 4)%Q))
                (Time.mk (1 # 3) None) (Time.mk 1 (Some (1 # 8)%Q)) = Ok c ∧
       Time._resolution c = Some (1 # 4)%Q.
Proof.
  apply (time_add_commutes (Settings.mk (Some (1 # 4)%Q))
           (Time.mk (1 # 3) None) (Time.mk 1 (Some (1 # 8)%Q))).
  intros r [= <-]. discriminate.
Defined.

(** ** Note and Rest: copies *)

Lemma time_eq_reflexive (time : Time.t) :
  (∀ r, Time._resolution time = Some r → ¬ (r == 0)%Q) →
  Time.eq time time = Ok true.
Proof.
  destruct time as [x [r|]]; cbn [Time._resolution]; intros Hr; unfold Time.eq;
    cbn [Time._resolution Time._time Time.resolution_eqb].
  - assert (E : Num.eqb r r = true) by (by apply eqb_eq). rewrite E.
    unfold Time.in_resolution_steps. cbn [Time._resolution Time._time].
    rewrite div_Ok by (by apply Hr). cbn [mbind result_bind]. by rewrite Z.eqb_refl.
  - assert (E : Num.eqb x x = true) by (by apply eqb_eq). by rewrite E.
Qed.

(** X12.  [copy()] of a Note or a Rest is the same Note or Rest: the
    pitch and the duration come back unchanged, without re-snapping and
    without any range check, and a Note compares equal to its copy
    whenever the resolution of its duration is not zero. *)
Theorem note_copy_is_equal (settings : Settings.t) (n : Note.t) (r : Rest.t) :
  Note.copy settings n = Ok n ∧
  Rest.copy settings r = Ok r ∧
  ((∀ q, Time._resolution (Note._duration n) = Some q → ¬ (q == 0)%Q) →
   ∃ n', Note.copy settings n = Ok n' ∧ Note.eq n n' = Ok true).
Proof.
  assert (Hn : Note.copy settings n = Ok n).
  { destruct n as [[rel oct] [x res]]. reflexivity. }
  split; [exact Hn|]. split.
  - destruct r as [[x res]]. reflexivity.
  - intros Hq. exists n. split; [exact Hn|].
    unfold Note.eq, Pitch.eq. rewrite Z.eqb_refl, bool_decide_eq_true_2 by reflexivity.
    cbn [andb]. by apply time_eq_reflexive.
Qed.

(** ** Span: more about sorting *)

Section SortAgain.
Context {A : Type}.

Lemma insert_below (x : (Z * Z) * A) (l : list ((Z * Z) * A)) :
  Forall (by_key x) l → PyList.insert x l = x :: l.
Proof.
  destruct l as [|y l]; [reflexivity|]. intros H.
  apply Forall_cons in H as [Hxy _]. apply key_leb_le in Hxy.
  cbn. by rewrite Hxy.
Qed.

Lemma sort_decorated_of_sorted (l : list ((Z * Z) * A)) :
  StronglySorted by_key l → PyList.sort_decorated l = l.
Proof.
  induction 1 as [|x l Hl IH Hx]; [reflexivity|].
  rewrite sort_decorated_cons, IH. apply insert_below. exact Hx.
Qed.

Lemma for_each_decorated (key : A → result (Z * Z)) (d : list ((Z * Z) * A)) :
  (∀ y, y ∈ d → key y.2 = Ok y.1) → for_each key d.*2 = Ok d.*1.
Proof.
  induction d as [|y d IH]; intros H; [reflexivity|].
  cbn [fmap list_fmap for_each]. rewrite (H y) by left. cbn [mbind result_bind].
  rewrite IH by (intros; apply H; by right). reflexivity.
Qed.

(** Sorting a sorted list changes nothing. *)
Lemma sort_idempotent (key : A → result (Z * Z)) (l l' : list A) :
  PyList.sort key l = Ok l' → PyList.sort key l' = Ok l'.
Proof.
  unfold PyList.sort. intros H. apply bind_Ok in H as (keys & Hkeys & [= <-]).
  apply for_each_key_Ok in Hkeys.
  pose proof (Forall2_length _ _ _ Hkeys) as Hlen.
  set (d := PyList.sort_decorated (zip keys l)).
  assert (Hdec : ∀ y, y ∈ d → key y.2 = Ok y.1).
  { intros y Hy. unfold d in Hy. rewrite sort_decorated_perm in Hy.
    destruct y as [k e]. apply list_elem_of_lookup in Hy as [i Hi].
    apply lookup_zip_with_Some in Hi as (k' & e' & [= <- <-] & Hk & He).
    cbn. exact (Forall2_lookup_lr _ _ _ _ _ _ Hkeys He Hk). }
  rewrite (for_each_decorated key d Hdec). cbn [mbind result_bind].
  rewrite zip_fst_snd.
  by rewrite (sort_decorated_of_sorted d (sort_decorated_sorted _)).
Qed.
End SortAgain.

Lemma max_list_perm (l l' : list Q) (m : Q) :
  l ≡ₚ l' → Num.max_list l = Ok m →
  ∃ m', Num.max_list l' = Ok m' ∧ (m' == m)%Q.
Proof.
  intros Hperm Hm.
  assert (Hne : l ≠ []) by (intros ->; discriminate).
  assert (Hne' : l' ≠ []).
  { intros ->. by apply Permutation_nil_r in Hperm. }
  destruct (max_list_spec l Hne) as (m0 & Hm0 & Hin & Hmax).
  rewrite Hm in Hm0. injection Hm0 as <-.
  destruct (max_list_spec l' Hne') as (m' & Hm' & Hin' & Hmax').
  exists m'. split; [exact Hm'|]. apply Qle_antisym.
  - apply Hmax. by rewrite Hperm.
  - apply Hmax'. by rewrite <- Hperm.
Qed.

(** X13.  [sort()] is idempotent: sorting a Span that [sort()] returned
    succeeds and returns it unchanged. *)
Theorem span_sort_idempotent (s s' : Span.t) :
  Span.sort s = Ok s' → Span.sort s' = Ok s'.
Proof.
  unfold Span.sort. intros H. apply bind_Ok in H as (events & Hs & [= <-]).
  cbn [Span._events Span._offset]. by rewrite (sort_idempotent _ _ _ Hs).
Qed.

(** X14.  [sort()] is stable: the events that share a sort key (the same
    onset step count and the same sort pitch) come out in the order in
    which they were stored. *)
Theorem span_sort_stable (s s' : Span.t) (k : Z * Z) :
  Span.sort s = Ok s' →
  filter (fun e => Span.sort_key e = Ok k) (Span._events s')
  = filter (fun e => Span.sort_key e = Ok k) (Span._events s).
Proof.
  unfold Span.sort. intros H. apply bind_Ok in H as (events & Hs & [= <-]).
  cbn [Span._events]. by apply (sort_spec Span.sort_key _ _ Hs).
Qed.

(** X15.  [sort()] moves events only: the offset is the same object and
    the natural length is the same number. *)
Theorem span_sort_keeps_length (s s' : Span.t) (natural : Q) :
  Span.sort s = Ok s' →
  Span.calculate_span_length s = Ok natural →
  Span.offset s' = Span.offset s ∧
  Span.num_events s' = Span.num_events s ∧
  ∃ m, Span.calculate_span_length s' = Ok m ∧ (m == natural)%Q.
Proof.
  intros Hs Hlen. apply sort_events in Hs as [Hperm Hoff].
  split; [exact Hoff|]. split.
  - unfold Span.num_events. by rewrite Hperm.
  - rewrite calculate_span_length_ends in Hlen |- *.
    apply (max_list_perm (end_position <$> Span._events s)); [|exact Hlen].
    by rewrite Hperm.
Qed.

Lemma span_sort_idempotent_witness :
  let t0 := Time.mk 0 (Some (1 # 4)%Q) in
  let t1 := Time.mk 1 (Some (1 # 4)%Q) in
  let c := Event.mk (ANote (Note.mk (Pitch.mk 0 (Some 4)) t1)) t0 in
  let c' := Event.mk (ANote (Note.mk (Pitch.mk 0 (Some 4)) t0)) t0 in
  let r := Event.mk (ARest (Rest.mk t1)) t1 in
  Span.sort (Span.mk [c; c'; r] t0) = Ok (Span.mk [c; c'; r] t0).
Proof.
  intros t0 t1 c c' r.
  apply (span_sort_idempotent (Span.mk [r; c; c'] t0)).
  vm_compute. reflexivity.
Defined.

Lemma span_sort_stable_witness :
  let t0 := Time.mk 0 (Some (1 # 4)%Q) in
  let t1 := Time.mk 1 (Some (1 # 4)%Q) in
  let c := Event.mk (ANote (Note.mk (Pitch.mk 0 (Some 4)) t1)) t0 in
  let c' := Event.mk (ANote (Note.mk (Pitch.mk 0 (Some 4)) t0)) t0 in
  let r := Event.mk (ARest (Rest.mk t1)) t1 in
  filter (fun e => Span.sort_key e = Ok (0, 60)) [c; c'; r]
  = filter (fun e => Span.sort_key e = Ok (0, 60)) [r; c; c'].
Proof.
  intros t0 t1 c c' r.
  apply (span_sort_stable (Span.mk [r; c; c'] t0) (Span.mk [c; c'; r] t0) (0, 60)).
  vm_compute. reflexivity.
Defined.

Lemma span_sort_keeps_length_witness :
  let t0 := Time.mk 0 (Some (1 # 4)%Q) in
  let t1 := Time.mk 1 (Some (1 # 4)%Q) in
  let c := Event.mk (ANote (Note.mk (Pitch.mk 0 (Some 4)) t1)) t0 in
  let c' := Event.mk (ANote (Note.mk (Pitch.mk 0 (Some 4)) t0)) t0 in
  let r := Event.mk (ARest (Rest.mk t1)) t1 in
  ∃ m, Span.calculate_span_length (Span.mk [c; c'; r] t0) = Ok m ∧ (m == 2)%Q.
Proof.
  intros t0 t1 c c' r.
  apply (span_sort_keeps_length (Span.mk [r; c; c'] t0) (Span.mk [c; c'; r] t0) 2).
  - vm_compute. reflexivity.
  - reflexivity.
Defined.

(** ** Span: padding and the target length of the constructor *)

Section PaddingAgain.
Local Open Scope Q_scope.
Context (settings : Settings.t) (Husable : usable settings).

Lemma time_of_on_default_grid (x : Q) :
  on_default_grid settings x → Time.in_beats (time_of settings x) == x.
Proof.
  unfold on_default_grid, time_of.
  destruct (Settings.resolution settings) as [r|] eqn:E; [|reflexivity].
  intros Hg. cbn. apply snap_on_grid; [by apply Husable|exact Hg].
Qed.

Lemma max_list_snoc (l : list Q) (x m : Q) :
  Num.max_list l = Ok m → m <= x →
  ∃ m', Num.max_list (l ++ [x]) = Ok m' ∧ m' == x.
Proof.
  intros Hm Hle.
  assert (Hne : l ≠ []) by (intros ->; discriminate).
  destruct (max_list_spec l Hne) as (m0 & Hm0 & _ & Hmax).
  rewrite Hm in Hm0. injection Hm0 as <-.
  destruct (max_list_spec (l ++ [x])) as (m' & Hm' & Hin & Hmax').
  { by destruct l. }
  exists m'. split; [exact Hm'|]. apply Qle_antisym.
  - apply elem_of_app in Hin as [Hin|Hin].
    + eapply Qle_trans; [by apply Hmax|exact Hle].
    + apply list_elem_of_singleton in Hin as ->. apply Qle_refl.
  - apply Hmax'. apply elem_of_app. right. by left.
Qed.
(** A positive number snaps to a number that is not negative. *)
Lemma time_of_nonneg (x : Q) : 0 < x → 0 <= Time.in_beats (time_of settings x).
Proof.
  intros Hx. unfold time_of.
  destruct (Settings.resolution settings) as [r|] eqn:E;
    cbn [Time.in_beats Time._time]; [|by apply Qlt_le_weak].
  pose proof (Husable r E) as Hr. unfold snap.
  pose proof (round_close (x / r)) as Hc.
  apply Qabs_Qle_condition in Hc as [Hlo Hhi].
  set (k := Num.round (x / r)) in *.
  destruct (Qlt_le_dec 0 r) as [Hpos|Hneg].
  - assert (Hq : 0 < x / r).
    { apply Qlt_shift_div_l; [exact Hpos|lra]. }
    assert (Hk : (0 <= k)%Z).
    { assert (H : inject_Z (-1) < inject_Z k) by (change (inject_Z (-1)) with (-1); lra).
      rewrite <- Zlt_Qlt in H. lia. }
    apply Qmult_le_0_compat; [by apply Qlt_le_weak|].
    change 0 with (inject_Z 0). by rewrite <- Zle_Qle.
  - assert (Hr' : r < 0).
    { apply Qle_lteq in Hneg as [H|H]; [exact H|by destruct Hr]. }
    assert (Hq : x / r < 0).
    { assert (Hx' : x == x / r * r) by (field; exact Hr).
      destruct (Qlt_le_dec (x / r) 0) as [H|H]; [exact H|exfalso].
      revert Hx' H. generalize (x / r). intros q Hx' H. nra. }
    assert (Hk : (k <= 0)%Z).
    { assert (H : inject_Z k < inject_Z 1) by (change (inject_Z 1) with 1; lra).
      rewrite <- Zlt_Qlt in H. lia. }
    assert (Hk' : inject_Z k <= 0).
    { change 0 with (inject_Z 0). by rewrite <- Zle_Qle. }
    assert (Hprod : 0 <= (- r) * (- inject_Z k)).
    { apply Qmult_le_0_compat; lra. }
    assert (Hsame : r * inject_Z k == (- r) * (- inject_Z k)) by ring.
    by rewrite Hsame.
Qed.
End PaddingAgain.

(** X16.  [pad_to_length(target)] never shortens, and pads with one
    Rest: on a Span whose natural length [natural] lies on the default
    grid, the Span is returned unchanged when [target <= natural];
    when [natural < target] exactly one event is appended, the Rest
    [Rest(target - natural)] at onset [Time(natural)], which starts at
    the old natural end, lasts [target - natural] when that lies on the
    default grid, and whose end is the natural length afterwards. *)
Theorem pad_to_length_ends_with_rest
  (settings : Settings.t) (s : Span.t) (natural target : Q) :
  usable settings →
  Span.calculate_span_length s = Ok natural →
  on_default_grid settings natural →
  ((target <= natural)%Q → Span.pad_to_length settings s target = Ok s) ∧
  ((natural < target)%Q →
   ∃ d t m,
     Rest.init settings (Time.OfNum (target - natural)) = Ok d ∧
     Time.new settings (Time.OfNum natural) = Ok t ∧
     Span.pad_to_length settings s target
     = Ok (Span.mk (Span._events s ++ [Event.mk (ARest d) t]) (Span._offset s)) ∧
     (Time.in_beats t == natural)%Q ∧
     (0 <= Time.in_beats (Rest.duration d))%Q ∧
     (on_default_grid settings (target - natural) →
      (Time.in_beats (Rest.duration d) == target - natural)%Q) ∧
     Span.calculate_span_length
       (Span.mk (Span._events s ++ [Event.mk (ARest d) t]) (Span._offset s))
     = Ok m ∧
     (m == Time.in_beats t + Time.in_beats (Rest.duration d))%Q).
Proof.
  intros Hu Hlen Hgn. split.
  - intros Hle. by apply (pad_to_length_noop settings s natural).
  - intros Hlt.
    set (d := Rest.mk (time_of settings (target - natural))).
    set (t := time_of settings natural).
    assert (Ht : (Time.in_beats t == natural)%Q).
    { by apply time_of_on_default_grid. }
    assert (Hd : (0 <= Time.in_beats (Rest.duration d))%Q).
    { apply time_of_nonneg; [exact Hu|lra]. }
    rewrite calculate_span_length_ends in Hlen.
    destruct (max_list_snoc (map end_position (Span._events s))
                (end_position (Event.mk (ARest d) t)) natural Hlen)
      as (m & Hm & Hmx).
    { unfold end_position. cbn [Event.time Event._time Event.duration Event._payload].
      fold t. lra. }
    exists d, t, m. split; [by apply rest_init_num|].
    split; [by apply time_new_num|].
    split; [by apply pad_to_length_appends_rest|].
    split; [exact Ht|]. split; [exact Hd|].
    split; [intros Hgt; by apply time_of_on_default_grid|].
    rewrite calculate_span_length_ends. cbn [Span._events].
    rewrite map_app. cbn [map]. split; [exact Hm|exact Hmx].
Qed.

Lemma pad_to_length_ends_with_rest_witness :
  let st := Settings.mk (Some (1 # 4)%Q) in
  let t0 := Time.mk 0 (Some (1 # 4)%Q) in
  let t1 := Time.mk 1 (Some (1 # 4)%Q) in
  let s := Span.mk [Event.mk (ANote (Note.mk (Pitch.mk 0 (Some 4)) t1)) t0] t0 in
  ∃ s' m, Span.pad_to_length st s 4 = Ok s' ∧
          Span.num_events s' = 2%nat ∧
          Span.calculate_span_length s' = Ok m.
Proof.
  intros st t0 t1 s.
  destruct (pad_to_length_ends_with_rest st s 1 4) as [_ Hpad].
  - intros r [= <-]. discriminate.
  - reflexivity.
  - exists 4. reflexivity.
  - destruct Hpad as (d & t & m & _ & _ & Hp & _ & _ & _ & Hm & _);
      [reflexivity|].
    eexists _, m. split; [exact Hp|]. split; [|exact Hm].
    unfold Span.num_events. cbn [Span._events]. by rewrite length_app.
Defined.

Lemma pad_to_length_total
  (settings : Settings.t) (s : Span.t) (natural target : Q) :
  usable settings →
  Span.calculate_span_length s = Ok natural →
  ∃ s', Span.pad_to_length settings s target = Ok s'.
Proof.
  intros Hu Hlen. destruct (Qlt_le_dec natural target) as [Hlt|Hle].
  - rewrite (pad_to_length_appends_rest settings Hu s natural target Hlen Hlt). eauto.
  - rewrite (pad_to_length_noop settings s natural target Hlen Hle). eauto.
Qed.

(** X17.  The target length of the constructor is a check, not a
    request: with [sort=False], an accepted offset and a usable default
    resolution, [Span(events, offset, length=target)] succeeds exactly
    when the natural length of the events is within 0.0001 of the target,
    and raises otherwise. *)
Theorem span_init_target_within_tolerance
  (settings : Settings.t) (items : list Span.item) (offset : Span.value)
  (off : Time.t) (natural target : Q) :
  usable settings →
  offset_time settings offset = Some off →
  Span.calculate_span_length (Span.mk (map item_event items) off) = Ok natural →
  (∃ s, Span.init settings items offset (Some target) false = Ok s) ↔
  (target - (1 # 10000) <= natural ∧ natural <= target + (1 # 10000))%Q.
Proof.
  intros Hu Hoff Hlen. unfold Span.init.
  rewrite (init_offset_Ok settings Hu offset off Hoff).
  cbn [mbind result_bind]. rewrite init_loop. cbn [mbind result_bind app].
  rewrite Hlen. cbn [mbind result_bind].
  destruct (pad_to_length_total settings _ natural target Hu Hlen) as [s' Hs'].
  destruct (Num.leb natural (target + (1 # 10000))) eqn:E1;
    cbn [assert mbind result_bind].
  - apply leb_le in E1. rewrite Hs'. cbn [mbind result_bind].
    destruct (Num.leb (target - (1 # 10000)) natural) eqn:E2;
      cbn [assert mbind result_bind].
    + apply leb_le in E2. split; [auto|eauto].
    + apply leb_gt in E2. split; [intros [s [=]]|intros [H _]; lra].
  - apply leb_gt in E1. split; [intros [s [=]]|intros [_ H]; lra].
Qed.

Lemma span_init_target_within_tolerance_witness :
  let st := Settings.mk (Some (1 # 4)%Q) in
  let t0 := Time.mk 0 (Some (1 # 4)%Q) in
  let t1 := Time.mk 1 (Some (1 # 4)%Q) in
  let c4 := ANote (Note.mk (Pitch.mk 0 (Some 4)) t1) in
  (∃ s, Span.init st [Span.APair c4 t0] (Span.VInt 0) (Some 1%Q) false = Ok s) ∧
  ¬ (∃ s, Span.init st [Span.APair c4 t0] (Span.VInt 0) (Some (1 # 2)%Q) false = Ok s).
Proof.
  intros st t0 t1 c4. split.
  - apply (span_init_target_within_tolerance st [Span.APair c4 t0] (Span.VInt 0)
             (time_of st 0) 1 1).
    + intros r [= <-]. discriminate.
    + reflexivity.
    + reflexivity.
    + split; discriminate.
  - intros H.
    apply (span_init_target_within_tolerance st [Span.APair c4 t0] (Span.VInt 0)
             (time_of st 0) 1 (1 # 2)) in H.
    + destruct H as [_ H]. apply H. reflexivity.
    + intros r [= <-]. discriminate.
    + reflexivity.
    + reflexivity.
Defined.

(** X18.  A Span without events has no natural length, and everything
    that needs one raises [ValueError] (the [max] of an empty list):
    [pad_to_length], the first pull of [generate_slices], and the
    constructor called with a target length and no events. *)
Theorem span_without_events_raises
  (settings : Settings.t) (off : Time.t) (target r : Q) (fuel : nat)
  (offset : Span.value) (sort_ : bool) :
  Span.pad_to_length settings (Span.mk [] off) target = Raise ValueError ∧
  Span.generate_slices_next (Span.mk [] off) r 0 = Raise ValueError ∧
  Span.generate_slices (S fuel) (Span.mk [] off) r = Some (Raise ValueError) ∧
  (usable settings → offset_time settings offset = Some off →
   Span.init settings [] offset (Some target) sort_ = Raise ValueError).
Proof.
  repeat split; try reflexivity.
  intros Hu Hoff. unfold Span.init.
  rewrite (init_offset_Ok settings Hu offset off Hoff). reflexivity.
Qed.

(** ** Span: folding the offset, overlay again *)

Section OverlayAgain.
Local Open Scope Q_scope.
Context (settings : Settings.t) (r : Q).
Context (Hres : Settings.resolution settings = Some r) (Hr : ¬ r == 0).

Lemma snap_shift_zero (x : Q) : snap r (snap r x + snap r 0) = snap r x.
Proof.
  assert (E0 : Num.round (0 / r) = 0%Z).
  { transitivity (Num.round (inject_Z 0)); [|apply round_inject_Z].
    apply round_comp. change (inject_Z 0) with 0. field. exact Hr. }
  assert (E : Num.round ((snap r x + snap r 0) / r) = Num.round (x / r)).
  { transitivity (Num.round (inject_Z (Num.round (x / r)))); [|apply round_inject_Z].
    apply round_comp. unfold snap. rewrite E0. change (inject_Z 0) with 0.
    field. exact Hr. }
  unfold snap at 1. by rewrite E.
Qed.

Lemma time_of_shift_zero (x : Q) :
  time_of settings (Time._time (time_of settings x) + Time._time (time_of settings 0))
  = time_of settings x.
Proof.
  rewrite !(time_of_resolution settings r Hres). cbn [Time._time].
  by rewrite snap_shift_zero.
Qed.

(** Folding a zero offset into events that were already shifted changes
    nothing. *)
Lemma shift_zero_shifted (off : Time.t) (e : Event.t) :
  shift_event settings (time_of settings 0) (shift_event settings off e)
  = shift_event settings off e.
Proof.
  unfold shift_event. cbn [Event.time Event._time Event.unwrap Event._payload].
  by rewrite time_of_shift_zero.
Qed.

Lemma absolute_events_again (events : list Event.t) :
  Forall (fun e => ∃ off e0, e = shift_event settings off e0) events →
  absolute_events settings (Span.mk events (time_of settings 0)) = events.
Proof.
  unfold absolute_events. cbn [Span._events Span.offset Span._offset].
  induction 1 as [|e events (off & e0 & ->) _ IH]; [reflexivity|].
  cbn [map]. by rewrite shift_zero_shifted, IH.
Qed.

(** [overlay] of Spans is one sort of all their events, offsets folded
    in. *)
Lemma overlay_as_sort (s0 : Span.t) (rest : list Span.t) :
  Span.overlay settings (Span.VSpan <$> s0 :: rest)
  = Span.sort (Span.mk (concat (absolute_events settings <$> s0 :: rest))
                       (time_of settings 0)).
Proof.
  pose proof (usable_resolution settings r Hres Hr) as Husable.
  unfold Span.overlay. cbn [fmap list_fmap]. rewrite list_getitem_head.
  cbn [mbind result_bind]. rewrite (move_offset_to_events_Ok settings r Hres Hr).
  cbn [mbind result_bind drop]. rewrite drop_0.
  rewrite (overlay_loop settings r Hres Hr). cbn [mbind result_bind].
  rewrite (time_new_num settings Husable). cbn [mbind result_bind].
  cbn [Span.offset Span._offset Span._events].
  rewrite (time_eq_refl_quantized settings r Hres Hr).
  reflexivity.
Qed.

Lemma overlay_total (s0 : Span.t) (rest : list Span.t) :
  ∃ out, Span.overlay settings (Span.VSpan <$> s0 :: rest) = Ok out ∧
         Span._offset out = time_of settings 0 ∧
         Span._events out ≡ₚ concat (absolute_events settings <$> s0 :: rest).
Proof.
  rewrite overlay_as_sort.
  destruct (span_sort_by_key
              (Span.mk (concat (absolute_events settings <$> s0 :: rest))
                       (time_of settings 0)))
    as (out & Hsort & Hoff & Hperm & _).
  { intros e He. pose proof (absolute_events_shifted settings (s0 :: rest)) as Hs.
    rewrite Forall_forall in Hs. destruct (Hs e He) as (off & e0 & ->).
    by apply (shift_event_quantized settings r). }
  exists out. auto.
Qed.
End OverlayAgain.



(** X21.  The result of [overlay] does not depend on the order of its
    arguments beyond the order of events with equal keys: under a numeric,
    non-zero default resolution, two argument lists that are permutations
    of each other both succeed, with the same offset and the same events
    up to order. *)
Theorem overlay_argument_order
  (settings : Settings.t) (r : Q) (s0 s0' : Span.t) (rest rest' : list Span.t) :
  Settings.resolution settings = Some r → ¬ (r == 0)%Q →
  s0 :: rest ≡ₚ s0' :: rest' →
  ∃ out out',
    Span.overlay settings (Span.VSpan <$> s0 :: rest) = Ok out ∧
    Span.overlay settings (Span.VSpan <$> s0' :: rest') = Ok out' ∧
    Span._offset out' = Span._offset out ∧
    Span._events out' ≡ₚ Span._events out.
Proof.
  intros Hres Hr Hperm.
  destruct (overlay_total settings r Hres Hr s0 rest) as (out & Ho & Hoff & He).
  destruct (overlay_total settings r Hres Hr s0' rest') as (out' & Ho' & Hoff' & He').
  exists out, out'. split; [exact Ho|]. split; [exact Ho'|].
  split; [congruence|]. rewrite He, He'. by rewrite Hperm.
Qed.

Lemma overlay_argument_order_witness :
  let st := Settings.mk (Some (1 # 4)%Q) in
  let at_ (x : Q) := Time.mk x (Some (1 # 4)%Q) in
  let a := Span.mk [Event.mk (ARest (Rest.mk (at_ (4 # 4)))) (at_ (4 # 4))] (at_ (8 # 4)) in
  let b := Span.mk [Event.mk (ARest (Rest.mk (at_ (8 # 4)))) (at_ (0 # 4))] (at_ (0 # 4)) in
  ∃ out out',
    Span.overlay st [Span.VSpan a; Span.VSpan b] = Ok out ∧
    Span.overlay st [Span.VSpan b; Span.VSpan a] = Ok out' ∧
    Span._events out' ≡ₚ Span._events out.
Proof.
  intros st at_ a b.
  destruct (overlay_argument_order st (1 # 4) a b [b] [a])
    as (out & out' & H1 & H2 & _ & H3).
  - reflexivity.
  - discriminate.
  - apply Permutation_swap.
  - exists out, out'. auto.
Defined.

(** X22.  [overlay] is idempotent: a Span that [overlay] returned is
    already flat, and overlaying it alone returns it unchanged. *)
Theorem overlay_idempotent
  (settings : Settings.t) (r : Q) (s0 : Span.t) (rest : list Span.t) (out : Span.t) :
  Settings.resolution settings = Some r → ¬ (r == 0)%Q →
  Span.overlay settings (Span.VSpan <$> s0 :: rest) = Ok out →
  Span.overlay settings [Span.VSpan out] = Ok out.
Proof.
  intros Hres Hr Hout.
  destruct (overlay_total settings r Hres Hr s0 rest) as (out0 & Ho & Hoff & He).
  rewrite Hout in Ho. injection Ho as <-.
  rewrite (overlay_as_sort settings r Hres Hr) in Hout.
  change [Span.VSpan out] with (Span.VSpan <$> out :: []).
  rewrite (overlay_as_sort settings r Hres Hr). cbn [fmap list_fmap concat].
  rewrite app_nil_r.
  assert (Hsame : absolute_events settings out = Span._events out).
  { destruct out as [events off]. cbn [Span._offset Span._events] in *. subst off.
    apply (absolute_events_again settings r Hres Hr).
    pose proof (absolute_events_shifted settings (s0 :: rest)) as Hs.
    rewrite Forall_forall in Hs |- *. intros e He'. apply Hs. by rewrite <- He. }
  rewrite Hsame, <- Hoff.
  replace (Span.mk (Span._events out) (Span._offset out)) with out by (by destruct out).
  unfold Span.sort in Hout |- *. apply bind_Ok in Hout as (events & Hs & [= <-]).
  cbn [Span._events Span._offset]. by rewrite (sort_idempotent _ _ _ Hs).
Qed.

Lemma overlay_idempotent_witness :
  let st := Settings.mk (Some (1 # 4)%Q) in
  let at_ (x : Q) := Time.mk x (Some (1 # 4)%Q) in
  let a := Span.mk [Event.mk (ARest (Rest.mk (at_ (4 # 4)))) (at_ (4 # 4))] (at_ (8 # 4)) in
  let b := Span.mk [Event.mk (ARest (Rest.mk (at_ (8 # 4)))) (at_ (0 # 4))] (at_ (0 # 4)) in
  let out := Span.mk [Event.mk (ARest (Rest.mk (at_ (8 # 4)))) (at_ (0 # 4));
                      Event.mk (ARest (Rest.mk (at_ (4 # 4)))) (at_ (12 # 4))]
                     (at_ (0 # 4)) in
  Span.overlay st [Span.VSpan out] = Ok out.
Proof.
  intros st at_ a b out.
  apply (overlay_idempotent st (1 # 4) a [b] out).
  - reflexivity.
  - discriminate.
  - vm_compute. reflexivity.
Defined.

Lemma overlay_later_not_a_span_witness :
  let st := Settings.mk (Some (1 # 4)%Q) in
  let at_ (x : Q) := Time.mk x (Some (1 # 4)%Q) in
  let a := Span.mk [Event.mk (ARest (Rest.mk (at_ (4 # 4)))) (at_ (4 # 4))] (at_ (8 # 4)) in
  Span.overlay st [Span.VSpan a; Span.VSpan a; Span.VStr "bar"; Span.VSpan a]
  = Raise ValueError.
Proof.
  intros st at_ a.
  apply (overlay_later_not_a_span st (1 # 4) eq_refl (ltac:(discriminate))
           a [a] (Span.VStr "bar") [Span.VSpan a]).
  discriminate.
Defined.

(** ** Piece *)

Section PieceFacts.
Local Open Scope Q_scope.
Context (settings : Settings.t) (r : Q).
Context (Hres : Settings.resolution settings = Some r) (Hr : ¬ r == 0).

Lemma time_quantize_Ok (time : Time.t) :
  ∃ e, Time.quantize settings time
       = Ok (time_of settings (Time.in_beats time), e).
Proof.
  unfold Time.quantize. rewrite Hres, (quantize_to_Ok _ r Hr).
  rewrite (time_of_resolution settings r Hres). eauto.
Qed.

Lemma quantize_event_Ok (e : Event.t) :
  Piece.quantize_event settings e = Ok (requantized settings e).
Proof.
  unfold Piece.quantize_event, requantized.
  destruct (time_quantize_Ok (Event.duration e)) as [e1 ->].
  destruct (time_quantize_Ok (Event.time e)) as [e2 ->].
  reflexivity.
Qed.

Lemma quantize_bar_Ok (bar : Span.t) :
  Piece.quantize_bar settings bar
  = Ok (Span.mk (map (requantized settings) (Span._events bar)) (Span._offset bar)).
Proof.
  unfold Piece.quantize_bar.
  rewrite (for_each_Ok _ (requantized settings)); [reflexivity|].
  intros e _. apply quantize_event_Ok.
Qed.

Lemma requantized_again (e : Event.t) :
  requantized settings (requantized settings e) = requantized settings e.
Proof.
  unfold requantized. destruct e as [[n|rest] time];
    cbn [Event.unwrap Event._payload Event.duration Event.time Event._time
         Piece.with_duration Note.duration Note._duration Note._pitch
         Rest.duration Rest._duration];
    rewrite !(time_of_resolution settings r Hres);
    cbn [Time.in_beats Time._time]; by rewrite !snap_snap.
Qed.

Lemma requantized_onset (e : Event.t) : quantized_onset (requantized settings e).
Proof.
  exists r. unfold requantized. cbn [Event.time Event._time].
  by rewrite (time_of_resolution settings r Hres).
Qed.
End PieceFacts.

(** X23.  [as_span()] flattens the bars with [overlay]: on a Piece
    without bars it raises [IndexError]; on a Piece with bars, under a
    numeric, non-zero default resolution, it returns a Span of offset zero
    that holds as many events as [count_events()] counts. *)
Theorem piece_as_span_counts_events (settings : Settings.t) (r : Q) (p : Piece.t) :
  Settings.resolution settings = Some r → ¬ (r == 0)%Q →
  (Piece.num_spans p = 0%nat → Piece.as_span settings p = Raise IndexError) ∧
  (Piece.num_spans p ≠ 0%nat →
   ∃ out, Piece.as_span settings p = Ok out ∧
          (Time.in_beats (Span.offset out) == 0)%Q ∧
          Span.num_events out = Piece.count_events p).
Proof.
  intros Hres Hr. unfold Piece.num_spans, Piece.as_span, Piece.count_events.
  destruct (Piece._spans p) as [|s0 rest]; split; try (intros; cbn in *; congruence).
  - intros _. reflexivity.
  - intros _. destruct (overlay_total settings r Hres Hr s0 rest) as (out & Ho & Hoff & He).
    exists out. split; [exact Ho|]. split.
    + unfold Span.offset. rewrite Hoff. by apply (time_of_zero settings r).
    + unfold Span.num_events at 1. rewrite He. apply length_absolute_events.
Qed.

Lemma piece_as_span_counts_events_witness :
  let st := Settings.mk (Some (1 # 4)%Q) in
  let at_ (x : Q) := Time.mk x (Some (1 # 4)%Q) in
  let a := Span.mk [Event.mk (ARest (Rest.mk (at_ (4 # 4)))) (at_ (4 # 4));
                    Event.mk (ARest (Rest.mk (at_ (4 # 4)))) (at_ (0 # 4))] (at_ (8 # 4)) in
  let b := Span.mk [Event.mk (ARest (Rest.mk (at_ (8 # 4)))) (at_ (0 # 4))] (at_ (0 # 4)) in
  Piece.as_span st (Piece.mk [] None None None) = Raise IndexError ∧
  ∃ out, Piece.as_span st (Piece.mk [a; b] None None None) = Ok out ∧
         Span.num_events out = 3%nat.
Proof.
  intros st at_ a b. split.
  - apply (piece_as_span_counts_events st (1 # 4) (Piece.mk [] None None None));
      first [reflexivity | discriminate].
  - destruct (piece_as_span_counts_events st (1 # 4) (Piece.mk [a; b] None None None))
      as (_ & H); [reflexivity|discriminate|].
    destruct H as (out & Ho & _ & Hn); [discriminate|].
    exists out. split; [exact Ho|exact Hn].
Defined.

(** X24.  [from_spans] accepts exactly the argument lists made of Spans:
    it then keeps them as the bars, in order; a single argument that is
    not a Span, anywhere, makes it an [AssertionError]. *)
Theorem piece_from_spans_checks_arguments (args : list Span.value) :
  (∀ bars, args = Span.VSpan <$> bars →
           ∃ p, Piece.from_spans args = Ok p ∧ Piece.bars p = bars ∧
                Piece.num_spans p = length args) ∧
  (∀ v, v ∈ args → Span.type v ≠ Span_ →
        Piece.from_spans args = Raise AssertionError).
Proof.
  unfold Piece.from_spans, Piece.build_from_spans. split.
  - intros bars ->.
    rewrite (for_each_Ok _ (fun v => match v with Span.VSpan s => s | _ => Span.mk [] (Time.mk 0 None) end)).
    + cbn [mbind result_bind]. eexists. split; [reflexivity|].
      unfold Piece.bars, Piece.num_spans. cbn [Piece._spans].
      rewrite <- list_fmap_compose. split; [by rewrite list_fmap_id|].
      by rewrite !length_fmap.
    + intros v Hv. apply list_elem_of_fmap in Hv as (s & -> & _). reflexivity.
  - intros v Hv Hty. induction args as [|a args IH]; [inversion Hv|].
    cbn [for_each]. apply elem_of_cons in Hv as [<-|Hv].
    + destruct v; try reflexivity. by destruct Hty.
    + destruct a; try reflexivity. cbn [mbind result_bind].
      specialize (IH Hv).
      destruct (for_each _ args) as [bars|e]; cbn [mbind result_bind] in IH |- *;
        [discriminate|exact IH].
Qed.

(** X25.  [length_in_beats()] answers only for a Piece without bars (with
    the integer 0): with bars, the first addition of [sum] is [0 + Time],
    which no operand supports, so the call raises. *)
Theorem piece_length_in_beats_only_empty
  (settings : Settings.t) (p : Piece.t) (v : Span.value) :
  Piece.length_in_beats settings p = Ok v ↔
  Piece.num_spans p = 0%nat ∧ v = Span.VInt 0.
Proof.
  unfold Piece.length_in_beats, Piece.num_spans.
  destruct (Piece._spans p) as [|b bars]; cbn [Piece.sum_lengths length].
  - split; [intros [= <-]; auto|intros [_ ->]; reflexivity].
  - split; [|intros [[=] _]].
    destruct (Span.length settings b); cbn; discriminate.
Qed.

(** X26.  Under a numeric, non-zero default resolution
    [quantize_events()] succeeds, keeps the bars and their events in
    place with their pitches, and leaves every onset and every duration on
    the default grid; afterwards every bar can be sorted. *)
Theorem piece_quantize_events_makes_sortable
  (settings : Settings.t) (r : Q) (p : Piece.t) :
  Settings.resolution settings = Some r → ¬ (r == 0)%Q →
  ∃ p', Piece.quantize_events settings p = Ok p' ∧
        Piece.num_spans p' = Piece.num_spans p ∧
        Piece.count_events p' = Piece.count_events p ∧
        (∀ i bar', Piece.bars p' !! i = Some bar' →
           ∃ bar, Piece.bars p !! i = Some bar ∧
                  Span._offset bar' = Span._offset bar ∧
                  Span._events bar' = requantized settings <$> Span._events bar ∧
                  ∃ sorted, Span.sort bar' = Ok sorted) ∧
        (∀ e, Event.pitch (requantized settings e) = Event.pitch e ∧
              Time._resolution (Event.time (requantized settings e)) = Some r ∧
              Time._resolution (Event.duration (requantized settings e)) = Some r ∧
              Time.on_grid r (Time.in_beats (Event.time (requantized settings e))) ∧
              Time.on_grid r (Time.in_beats (Event.duration (requantized settings e)))).
Proof.
  intros Hres Hr. unfold Piece.quantize_events.
  rewrite (for_each_Ok _ (fun bar => Span.mk (map (requantized settings) (Span._events bar))
                                             (Span._offset bar)))
    by (intros bar _; apply (quantize_bar_Ok settings r Hres Hr)).
  cbn [mbind result_bind]. eexists. split; [reflexivity|].
  unfold Piece.num_spans, Piece.count_events, Piece.bars. cbn [Piece._spans].
  split; [by rewrite length_map|]. split; [|split].
  - induction (Piece._spans p) as [|b bars IH]; [reflexivity|].
    cbn [map sum_list_with]. rewrite IH. unfold Span.num_events at 1.
    cbn [Span._events]. by rewrite length_map.
  - intros i bar' Hi. change (map ?f ?l) with (f <$> l) in Hi.
    apply list_lookup_fmap_Some in Hi as (bar & -> & Hbar).
    exists bar. split; [exact Hbar|]. split; [reflexivity|]. split; [reflexivity|].
    destruct (span_sort_by_key
                (Span.mk (map (requantized settings) (Span._events bar))
                         (Span._offset bar))) as (sorted & Hs & _).
    + intros e He. cbn [Span._events] in He.
      apply list_elem_of_fmap in He as (e0 & -> & _).
      by apply (requantized_onset settings r).
    + eauto.
  - intros e. unfold requantized.
    rewrite !(time_of_resolution settings r Hres).
    destruct e as [[n|rest] time];
      cbn [Event.pitch Event.time Event.duration Event._payload Event._time
           Event.unwrap Piece.with_duration Note.pitch Note.duration
           Note._pitch Note._duration Rest.pitch Rest.duration Rest._duration
           Time._resolution Time.in_beats Time._time];
      repeat split; apply snap_grid.
Qed.

Lemma for_each_idempotent {A} (f : A → result A) (l l' : list A) :
  (∀ x y, f x = Ok y → f y = Ok y) →
  for_each f l = Ok l' → for_each f l' = Ok l'.
Proof.
  intros Hf. revert l'. induction l as [|x l IH]; intros l' H; cbn in H.
  - by injection H as <-.
  - apply bind_Ok in H as (y & Hy & H). apply bind_Ok in H as (ys & Hys & [= <-]).
    cbn [for_each]. rewrite (Hf x y Hy). cbn [mbind result_bind].
    rewrite (IH ys Hys). reflexivity.
Qed.

Lemma quantize_event_idempotent (settings : Settings.t) (e e' : Event.t) :
  Piece.quantize_event settings e = Ok e' →
  Piece.quantize_event settings e' = Ok e'.
Proof.
  intros H. pose proof H as H0. unfold Piece.quantize_event in H0.
  apply bind_Ok in H0 as ([d ed] & Hd & _).
  unfold Time.quantize, Time.quantize_to in Hd.
  destruct (Settings.resolution settings) as [r|] eqn:Hres; [|discriminate].
  apply bind_Ok in Hd as (q & Hq & _).
  assert (Hr : ¬ (r == 0)%Q).
  { intros Hr. by rewrite (div_zero _ _ Hr) in Hq. }
  rewrite (quantize_event_Ok settings r Hres Hr) in H. injection H as <-.
  rewrite (quantize_event_Ok settings r Hres Hr).
  by rewrite (requantized_again settings r Hres Hr).
Qed.

(** X27.  [quantize_events()] is idempotent: quantizing a Piece that
    [quantize_events()] has just returned succeeds and returns it
    unchanged. *)
Theorem piece_quantize_events_idempotent (settings : Settings.t) (p p' : Piece.t) :
  Piece.quantize_events settings p = Ok p' →
  Piece.quantize_events settings p' = Ok p'.
Proof.
  unfold Piece.quantize_events. intros H.
  apply bind_Ok in H as (bars & Hbars & [= <-]). cbn [Piece._spans Piece._tonic Piece._key_mode Piece._name].
  rewrite (for_each_idempotent (Piece.quantize_bar settings) (Piece._spans p) bars);
    [reflexivity| |exact Hbars].
  intros bar bar' Hbar. unfold Piece.quantize_bar in Hbar |- *.
  apply bind_Ok in Hbar as (events & He & [= <-]). cbn [Span._events Span._offset].
  rewrite (for_each_idempotent (Piece.quantize_event settings) (Span._events bar) events);
    [reflexivity|apply quantize_event_idempotent|exact He].
Qed.

Lemma piece_quantize_events_makes_sortable_witness :
  let st := Settings.mk (Some (1 # 4)%Q) in
  let raw := Span.mk [Event.mk (ANote (Note.mk (Pitch.mk 0 (Some 4)) (Time.mk (1 # 3) None)))
                               (Time.mk (9 # 10) (Some (1 # 10)%Q))]
                     (Time.mk 0 None) in
  ∃ p', Piece.quantize_events st (Piece.mk [raw] None None None) = Ok p' ∧
        Piece.count_events p' = 1%nat.
Proof.
  intros st raw.
  destruct (piece_quantize_events_makes_sortable st (1 # 4) (Piece.mk [raw] None None None))
    as (p' & Hp & _ & Hc & _); [reflexivity|discriminate|].
  exists p'. split; [exact Hp|exact Hc].
Defined.

Lemma piece_quantize_events_idempotent_witness :
  let st := Settings.mk (Some (1 # 4)%Q) in
  let at_ (x : Q) := Time.mk x (Some (1 # 4)%Q) in
  let snapped := Span.mk [Event.mk (ANote (Note.mk (Pitch.mk 0 (Some 4)) (at_ (1 # 4))))
                                   (at_ (4 # 4))]
                         (Time.mk 0 None) in
  Piece.quantize_events st (Piece.mk [snapped] None None None)
  = Ok (Piece.mk [snapped] None None None).
Proof.
  intros st at_ snapped.
  apply (piece_quantize_events_idempotent st
           (Piece.mk [Span.mk [Event.mk (ANote (Note.mk (Pitch.mk 0 (Some 4))
                                                        (Time.mk (1 # 3) None)))
                                        (Time.mk (9 # 10) (Some (1 # 10)%Q))]
                              (Time.mk 0 None)] None None None)).
  vm_compute. reflexivity.
Defined.

Lemma piece_length_in_beats_only_empty_witness :
  Piece.length_in_beats (Settings.mk (Some (1 # 4)%Q)) (Piece.mk [] None None None)
  = Ok (Span.VInt 0).
Proof.
  apply (piece_length_in_beats_only_empty (Settings.mk (Some (1 # 4)%Q))
           (Piece.mk [] None None None) (Span.VInt 0)).
  split; reflexivity.
Defined.

(** X28.  [copy()] of a [Time] goes through the constructor and is
    snapped again: for an unquantized [Time], or one whose value lies on
    the grid of its own non-zero resolution, the copy has the same
    resolution and the same value and compares equal to the original. *)
Theorem time_copy_on_grid (time : Time.t) :
  (∀ r, Time._resolution time = Some r →
        ¬ (r == 0)%Q ∧ Time.on_grid r (Time._time time)) →
  ∃ c, Time.copy time = Ok c ∧
       Time._resolution c = Time._resolution time ∧
       (Time._time c == Time._time time)%Q ∧
       Time.eq time c = Ok true.
Proof.
  destruct time as [x [r|]]; cbn [Time._resolution Time._time]; intros H.
  - destruct (H r eq_refl) as [Hr Hg].
    unfold Time.copy, Time.init. cbn [Time._resolution Time._time].
    rewrite quantize_to_Ok by exact Hr. cbn [fmap result_fmap fst Time._time].
    exists (Time.mk (snap r x) (Some r)). split; [reflexivity|].
    cbn [Time._resolution Time._time].
    split; [reflexivity|].
    assert (E : (snap r x == x)%Q) by (by apply snap_on_grid).
    split; [exact E|].
    destruct Hg as [k Hk]. unfold Time.eq.
    cbn [Time._resolution Time._time Time.resolution_eqb].
    assert (Hrr : Num.eqb r r = true) by (by apply eqb_eq). rewrite Hrr.
    unfold Time.in_resolution_steps. cbn [Time._resolution Time._time].
    rewrite !div_Ok by exact Hr. cbn [mbind result_bind].
    assert (H1 : Num.int (x / r) = k).
    { apply int_of_integer. rewrite Hk. by field. }
    assert (H2 : Num.int (snap r x / r) = k).
    { apply int_of_integer. rewrite E, Hk. by field. }
    by rewrite H1, H2, Z.eqb_refl.
  - exists (Time.mk x None). repeat split; try reflexivity.
    by apply time_eq_reflexive.
Qed.

Lemma time_copy_on_grid_witness :
  ∃ c, Time.copy (Time.mk (3 # 4) (Some (1 # 4)%Q)) = Ok c ∧
       (Time._time c == 3 # 4)%Q.
Proof.
  destruct (time_copy_on_grid (Time.mk (3 # 4) (Some (1 # 4)%Q))) as (c & Hc & _ & Hv & _).
  - intros r [= <-]. split; [discriminate|]. exists 3. reflexivity.
  - exists c. split; [exact Hc|exact Hv].
Defined.
